(** * ubernet: the asynchronous TCP reachability checker

    A shallow embedding of [socket.go] and [checker.go].  The Go functions are
    written as programs over the operations they perform (system calls, the
    Checker's fields, the channel pool, the completion registry), and two
    semantics are given to those programs:

    - [observe]: the operations a goroutine performs, under arbitrary answers
      of its environment (the kernel and the other goroutines);
    - [exec] / [run_sched]: execution on an explicit shared state, one
      goroutine alone or several interleaved by a schedule. *)

From Stdlib Require Import ZArith String List Bool Lia.
From stdpp Require Import base option list gmap strings.

Local Open Scope string_scope.
Local Open Scope list_scope.
Local Open Scope Z_scope.

(** ** Errors *)

(** Go's [error] values that occur in the package.  [unix.Errno] is a
    [uintptr]; the sentinel errors and [ErrConnect] are declared outside
    [socket.go] and [checker.go] and are plain constructors here;
    [withMessage] is what [errors.Wrap] builds. *)
Inductive error : Type :=
| Errno (e : Z)
| ErrTimeout
| ErrCheckerAlreadyStarted
| ErrConnect (cause : error)
| withMessage (cause : error) (msg : string).

(** An [error] interface value; [None] is [nil]. *)
Abbreviation Err := (option error).

#[global] Instance error_eq_dec : EqDecision error.
Proof.
  unfold EqDecision, Decision.
  decide equality; [apply Z.eq_dec | apply string_dec].
Defined.

(** [errors.Wrap(err, msg)] of github.com/pkg/errors: [nil] stays [nil]. *)
Definition errors_Wrap (err : Err) (msg : string) : Err :=
  match err with
  | None => None
  | Some e => Some (withMessage e msg)
  end.

(** [errors.Cause]: strips the messages added by [errors.Wrap]. *)
Fixpoint errors_Cause (e : error) : error :=
  match e with
  | withMessage c _ => errors_Cause c
  | _ => e
  end.

(** ** Platform constants *)

(** [runtime.GOOS] and the values of the [unix.E*] constants that [connect]
    switches on; they differ from one operating system to the next. *)
Record Platform : Type := {
  GOOS : string;
  EALREADY : Z;
  EINPROGRESS : Z;
  EINTR : Z;
  EISCONN : Z;
  EINVAL : Z
}.

Definition linux : Platform :=
  {| GOOS := "linux"; EALREADY := 114; EINPROGRESS := 115; EINTR := 4;
     EISCONN := 106; EINVAL := 22 |}.

Definition solaris : Platform :=
  {| GOOS := "solaris"; EALREADY := 149; EINPROGRESS := 150; EINTR := 4;
     EISCONN := 133; EINVAL := 22 |}.

Definition darwin : Platform :=
  {| GOOS := "darwin"; EALREADY := 37; EINPROGRESS := 36; EINTR := 4;
     EISCONN := 56; EINVAL := 22 |}.

(** A Go [switch] over constants does not compile with a duplicated case, so
    the five codes of a platform are pairwise distinct. *)
Definition distinct_codes (p : Platform) : Prop :=
  NoDup [EALREADY p; EINPROGRESS p; EINTR p; EISCONN p; EINVAL p].

(** Socket constants of [golang.org/x/sys/unix] (Linux values; the option
    [TCP_QUICKACK] exists on Linux only). *)
Definition AF_INET : Z := 2.
Definition SOCK_STREAM : Z := 1.
Definition IPPROTO_TCP : Z := 6.
Definition TCP_QUICKACK : Z := 12.

(** ** Values *)

(** [unix.Sockaddr]. *)
Inductive Sockaddr : Type :=
| SockaddrInet4 (port : Z) (addr : list Z)
| SockaddrInet6 (port : Z) (zoneId : Z) (addr : list Z)
| SockaddrUnix (name : string).

(** [time.Time] and [time.Duration], both counted in nanoseconds. *)
Abbreviation Time := Z.
Abbreviation Duration := Z.

Definition maxDuration : Z := 2 ^ 63 - 1.
Definition minDuration : Z := - 2 ^ 63.

Definition time_Add (t : Time) (d : Duration) : Time := t + d.

(** [Time.Sub] saturates at the bounds of [Duration]. *)
Definition time_Sub (t u : Time) : Duration :=
  Z.max minDuration (Z.min maxDuration (t - u)).

Definition time_Second : Duration := 1000000000.

(** A delivery channel ([chan error]) is named by a number. *)
Abbreviation chan := nat.

(** [event], as returned by [pollEvents]. *)
Record event : Type := { Fd : Z; EvErr : Err }.

(** What [select] in [waitPipeTimeout] received. *)
Inductive selected : Type :=
| FromPipe (ret : Err)
| TimerFired.

(** [int32(fd)]: conversion of an [int] to 32 bits, two's complement. *)
Definition int32 (z : Z) : Z := (z + 2 ^ 31) mod 2 ^ 32 - 2 ^ 31.

(** ** Operations *)

(** The primitive steps of the package: each constructor is one call that the
    sources make and whose body is outside [socket.go] and [checker.go].  The
    index is the type of the call's result. *)
Inductive Op : Type -> Type :=
(* package time *)
| time_Now : Op Time
(* package golang.org/x/sys/unix *)
| unix_Socket (domain typ proto : Z) : Op (Z * Err)
| unix_CloseOnExec (fd : Z) : Op unit
| unix_SetNonblock (fd : Z) (nonblocking : bool) : Op Err
| unix_SetsockoptInt (fd level opt value : Z) : Op Err
| unix_Connect (fd : Z) (sa : Sockaddr) : Op Err
| unix_Close (fd : Z) : Op Err
(* functions of the package declared outside the two files *)
| parseSockAddr (addr : string) : Op (Sockaddr * Err)
| createPoller : Op (Z * Err)
| registerEvents (pollerFd fd : Z) : Op Err
| pollEvents (pollerFd : Z) (timeout : Duration) : Op (list event * Err)
(* Checker.pollerLock, Checker.pollerFd, Checker.isReady *)
| pollerLock_Lock : Op unit
| pollerLock_Unlock : Op unit
| atomic_LoadInt32_pollerFd : Op Z
| atomic_StoreInt32_pollerFd (v : Z) : Op unit
| close_isReady : Op unit
| make_isReady : Op unit
(* Checker.pipePool *)
| getPipe : Op chan
| putBackPipe (pipe : chan) : Op unit
(* Checker.resultPipes *)
| registerResultPipe (fd : Z) (pipe : chan) : Op unit
| popResultPipe (fd : Z) : Op (option chan)
| deregisterResultPipe (fd : Z) : Op unit
(* channel statements *)
| chan_send (pipe : chan) (v : Err) : Op unit
| select_pipe_or_timer (pipe : chan) (timeout : Duration) : Op selected
| select_ctx_Done : Op bool.

(** ** Programs *)

(** A Go function body: it returns, or performs an operation and goes on with
    its result.  [Spin] stands for a loop that has not ended within the
    iterations it was given. *)
Inductive Prog (A : Type) : Type :=
| Ret (a : A)
| Vis (X : Type) (op : Op X) (k : X -> Prog A)
| Spin.

Arguments Ret {A} a.
Arguments Vis {A X} op k.
Arguments Spin {A}.

Fixpoint bind {A B : Type} (p : Prog A) (f : A -> Prog B) : Prog B :=
  match p with
  | Ret a => f a
  | Vis op k => Vis op (fun x => bind (k x) f)
  | Spin => Spin
  end.

Definition call {X : Type} (op : Op X) : Prog X := Vis op Ret.

Declare Scope prog_scope.
Delimit Scope prog_scope with prog.
Notation "x <- p ;; q" := (bind p (fun x => q))
  (at level 100, p at next level, right associativity) : prog_scope.
Notation "p ;;; q" := (bind p (fun _ => q))
  (at level 100, right associativity) : prog_scope.
Local Open Scope prog_scope.

(** [defer cleanup; body]: the deferred call runs when the body has returned,
    and the body's result is what the function returns. *)
Definition defer {A X : Type} (cleanup : Prog X) (body : Prog A) : Prog A :=
  r <- body ;; cleanup ;;; Ret r.

(** ** socket.go *)

Section Socket.
Variable plat : Platform.

(** [socket.go] declares [createSocket] with the parameters [ctx], [net],
    [laddr], [raddr], [sotype] and [proto]; its body uses none of them, and
    [CheckAddr] calls it without arguments, so they are left out.  The
    descriptor is marked close-on-exec whether [unix.Socket] failed or
    not. *)
Definition createSocket : Prog (Z * Err) :=
  r <- call (unix_Socket AF_INET SOCK_STREAM 0) ;;
  let '(fd, err) := r in
  call (unix_CloseOnExec fd) ;;;
  Ret (fd, err).

Definition setSockOpts (fd : Z) : Prog Err :=
  err <- call (unix_SetNonblock fd true) ;;
  match err with
  | Some _ => Ret err
  | None => call (unix_SetsockoptInt fd IPPROTO_TCP TCP_QUICKACK 0)
  end.

(** The [switch] of [connect]: Go tries the cases in order and compares the
    interface value [serr] with each constant. *)
Definition connect_switch (serr : Err) : bool * Err :=
  if bool_decide (serr = Some (Errno (EALREADY plat))
                  \/ serr = Some (Errno (EINPROGRESS plat))
                  \/ serr = Some (Errno (EINTR plat))) then
    (false, None)
  else if bool_decide (serr = None \/ serr = Some (Errno (EISCONN plat))) then
    (true, None)
  else if bool_decide (serr = Some (Errno (EINVAL plat))) then
    if bool_decide (GOOS plat = "solaris") then (true, None)
    else (false, serr)
  else
    (false, serr).

Definition connect (fd : Z) (addr : Sockaddr) : Prog (bool * Err) :=
  serr <- call (unix_Connect fd addr) ;;
  Ret (connect_switch serr).
End Socket.

(** ** checker.go *)

Definition pollerTimeout : Duration := time_Second.

Section CheckerMethods.
Variable plat : Platform.

Definition pollerFD : Prog Z := call atomic_LoadInt32_pollerFd.

Definition setPollerFD (fd : Z) : Prog unit :=
  call (atomic_StoreInt32_pollerFd (int32 fd)).

(** The method [createPoller] of the Checker; the function [createPoller] it
    calls is the operation of that name. *)
Definition Checker_createPoller : Prog (Z * Err) :=
  call pollerLock_Lock ;;;
  defer (call pollerLock_Unlock)
    (cur <- pollerFD ;;
     if 0 <? cur then Ret (-1, Some ErrCheckerAlreadyStarted)
     else
       r <- call createPoller ;;
       let '(pollerFd, err) := r in
       match err with
       | Some _ => Ret (-1, err)
       | None => setPollerFD pollerFd ;;; Ret (pollerFd, err)
       end).

Definition setReady : Prog unit := call close_isReady.

Definition resetReady : Prog unit := call make_isReady.

Fixpoint handlePollerEvents (events : list event) : Prog unit :=
  match events with
  | [] => Ret tt
  | ev :: rest =>
      found <- call (popResultPipe (Fd ev)) ;;
      match found with
      | Some pipe => call (chan_send pipe (EvErr ev))
      | None => Ret tt
      end ;;;
      handlePollerEvents rest
  end.

(** The [for] loop of [pollingLoop], unrolled at most [fuel] times. *)
Fixpoint pollingLoop (fuel : nat) (pollerFd : Z) : Prog Err :=
  match fuel with
  | O => Spin
  | S fuel' =>
      cancelled <- call select_ctx_Done ;;
      if (cancelled : bool) then Ret None
      else
        r <- call (pollEvents pollerFd pollerTimeout) ;;
        let '(events, err) := r in
        match err with
        | Some _ => Ret (errors_Wrap err "error during polling loop")
        | None => handlePollerEvents events ;;; pollingLoop fuel' pollerFd
        end
  end.

Definition closePoller : Prog Err :=
  call pollerLock_Lock ;;;
  defer (call pollerLock_Unlock)
    (cur <- pollerFD ;;
     err <- (if 0 <? cur then fd <- pollerFD ;; call (unix_Close fd)
             else Ret None) ;;
     setPollerFD (-1) ;;;
     Ret err).

Definition CheckingLoop (fuel : nat) : Prog Err :=
  r <- Checker_createPoller ;;
  let '(pollerFd, err) := r in
  match err with
  | Some _ => Ret (errors_Wrap err "error creating poller")
  | None =>
      defer closePoller
        (setReady ;;;
         defer resetReady (pollingLoop fuel pollerFd))
  end.

Definition waitPipeTimeout (pipe : chan) (timeout : Duration) : Prog Err :=
  got <- call (select_pipe_or_timer pipe timeout) ;;
  match got with
  | FromPipe ret => Ret ret
  | TimerFired => Ret (Some ErrTimeout)
  end.

Definition waitConnectResult (fd : Z) (timeout : Duration) : Prog Err :=
  resultPipe <- call getPipe ;;
  defer (call (deregisterResultPipe fd) ;;; call (putBackPipe resultPipe))
    (call (registerResultPipe fd resultPipe) ;;;
     pfd <- pollerFD ;;
     err <- call (registerEvents pfd fd) ;;
     match err with
     | Some _ => Ret err
     | None => waitPipeTimeout resultPipe timeout
     end).

Definition CheckAddr (addr : string) (timeout : Duration) : Prog Err :=
  now <- call time_Now ;;
  let deadline := time_Add now timeout in
  r <- call (parseSockAddr addr) ;;
  let '(rAddr, err) := r in
  match err with
  | Some _ => Ret err
  | None =>
      r <- createSocket ;;
      let '(fd, err) := r in
      match err with
      | Some _ => Ret err
      | None =>
          defer (call (unix_Close fd))
            (r <- connect plat fd rAddr ;;
             let '(success, cErr) := r in
             match cErr with
             | Some e => Ret (Some (ErrConnect e))
             | None =>
                 if (success : bool) then Ret None
                 else
                   now' <- call time_Now ;;
                   waitConnectResult fd (time_Sub deadline now')
             end)
      end
  end.
End CheckerMethods.

(** ** What a goroutine does, whatever its environment answers *)

(** An operation together with the result it returned. *)
Inductive Event : Type :=
| Ev (X : Type) (op : Op X) (x : X).

Arguments Ev {X} op x.

(** The answers of the environment: one for each operation and each
    position in the run. *)
Definition Oracle : Type := forall X : Type, nat -> Op X -> X.

(** The operations performed by [p] from position [n] on, and its result
    ([None] for a loop cut short). *)
Fixpoint observe {A : Type} (p : Prog A) (o : Oracle) (n : nat)
  : list Event * option A :=
  match p with
  | Ret a => ([], Some a)
  | Spin => ([], None)
  | Vis op k =>
      let x := o _ n op in
      let '(tr, r) := observe (k x) o (S n) in
      (Ev op x :: tr, r)
  end.

Definition trace_of {A : Type} (p : Prog A) (o : Oracle) : list Event :=
  fst (observe p o 0).

Definition result_of {A : Type} (p : Prog A) (o : Oracle) : option A :=
  snd (observe p o 0).

(** An oracle that answers every operation with success. *)
Definition quiet : Oracle :=
  fun X _ op =>
    match op in Op T return T with
    | time_Now => 0
    | unix_Socket _ _ _ => (3, None)
    | unix_CloseOnExec _ => tt
    | unix_SetNonblock _ _ => None
    | unix_SetsockoptInt _ _ _ _ => None
    | unix_Connect _ _ => None
    | unix_Close _ => None
    | parseSockAddr _ => (SockaddrInet4 80 [127; 0; 0; 1], None)
    | createPoller => (4, None)
    | registerEvents _ _ => None
    | pollEvents _ _ => ([], None)
    | pollerLock_Lock => tt
    | pollerLock_Unlock => tt
    | atomic_LoadInt32_pollerFd => 4
    | atomic_StoreInt32_pollerFd _ => tt
    | close_isReady => tt
    | make_isReady => tt
    | getPipe => O
    | putBackPipe _ => tt
    | registerResultPipe _ _ => tt
    | popResultPipe _ => None
    | deregisterResultPipe _ => tt
    | chan_send _ _ => tt
    | select_pipe_or_timer _ _ => TimerFired
    | select_ctx_Done => true
    end.

(** [quiet], except for the results of [unix.Connect], of [registerEvents]
    and of the [select]. *)
Definition answers_with (serr reg : Err) (got : selected) : Oracle :=
  fun X n op =>
    match op in Op T return T -> T with
    | unix_Connect _ _ => fun _ => serr
    | registerEvents _ _ => fun _ => reg
    | select_pipe_or_timer _ _ => fun _ => got
    | _ => fun d => d
    end (quiet X n op).

Definition connect_answers (serr : Err) : Oracle :=
  answers_with serr None TimerFired.

(** ** The shared state *)

(** The fields of [Checker].  [pollerLock] tells whether the mutex is held;
    [isReady] names the [chan struct{}] the field holds at the moment. *)
Record Checker : Type := {
  pipePool : list chan;
  pollerLock : bool;
  resultPipes : gmap Z chan;
  pollerFd : Z;
  isReady : nat
}.

(** The Checker together with what its goroutines share with the runtime and
    the kernel: the buffers of the delivery channels made so far, the
    readiness channels that have been closed, the open descriptors, and the
    clock.  [poolDrains] fixes one of the two readings of the pool's release
    (see [op_step]). *)
Record World : Type := {
  checker : Checker;
  pipes : gmap chan (list Err);
  nextPipe : chan;
  closedSignals : gset nat;
  openFds : gset Z;
  clock : Time;
  poolDrains : bool
}.

Definition set_checker (f : Checker -> Checker) (w : World) : World :=
  {| checker := f (checker w); pipes := pipes w; nextPipe := nextPipe w;
     closedSignals := closedSignals w;
     openFds := openFds w; clock := clock w; poolDrains := poolDrains w |}.

Definition set_pipes (f : gmap chan (list Err) -> gmap chan (list Err))
    (w : World) : World :=
  {| checker := checker w; pipes := f (pipes w); nextPipe := nextPipe w;
     closedSignals := closedSignals w;
     openFds := openFds w; clock := clock w; poolDrains := poolDrains w |}.

Definition set_nextPipe (n : chan) (w : World) : World :=
  {| checker := checker w; pipes := pipes w; nextPipe := n;
     closedSignals := closedSignals w;
     openFds := openFds w; clock := clock w; poolDrains := poolDrains w |}.

Definition set_closedSignals (f : gset nat -> gset nat) (w : World) : World :=
  {| checker := checker w; pipes := pipes w; nextPipe := nextPipe w;
     closedSignals := f (closedSignals w);
     openFds := openFds w; clock := clock w; poolDrains := poolDrains w |}.

Definition set_openFds (f : gset Z -> gset Z) (w : World) : World :=
  {| checker := checker w; pipes := pipes w; nextPipe := nextPipe w;
     closedSignals := closedSignals w;
     openFds := f (openFds w); clock := clock w; poolDrains := poolDrains w |}.

Definition set_clock (t : Time) (w : World) : World :=
  {| checker := checker w; pipes := pipes w; nextPipe := nextPipe w;
     closedSignals := closedSignals w;
     openFds := openFds w; clock := t; poolDrains := poolDrains w |}.

Definition set_pipePool (f : list chan -> list chan) (c : Checker) : Checker :=
  {| pipePool := f (pipePool c); pollerLock := pollerLock c;
     resultPipes := resultPipes c; pollerFd := pollerFd c;
     isReady := isReady c |}.

Definition set_pollerLock (b : bool) (c : Checker) : Checker :=
  {| pipePool := pipePool c; pollerLock := b;
     resultPipes := resultPipes c; pollerFd := pollerFd c;
     isReady := isReady c |}.

Definition set_resultPipes (f : gmap Z chan -> gmap Z chan) (c : Checker)
  : Checker :=
  {| pipePool := pipePool c; pollerLock := pollerLock c;
     resultPipes := f (resultPipes c); pollerFd := pollerFd c;
     isReady := isReady c |}.

Definition set_pollerFd (v : Z) (c : Checker) : Checker :=
  {| pipePool := pipePool c; pollerLock := pollerLock c;
     resultPipes := resultPipes c; pollerFd := v;
     isReady := isReady c |}.

Definition set_isReady (s : nat) (c : Checker) : Checker :=
  {| pipePool := pipePool c; pollerLock := pollerLock c;
     resultPipes := resultPipes c; pollerFd := pollerFd c;
     isReady := s |}.

(** [NewChecker]: empty pool and registry, no poller, a fresh readiness
    channel. *)
Definition NewChecker (drains : bool) : World :=
  {| checker := {| pipePool := []; pollerLock := false; resultPipes := ∅;
                   pollerFd := -1; isReady := 0 |};
     pipes := ∅; nextPipe := 0%nat;
     closedSignals := ∅;
     openFds := ∅; clock := 0; poolDrains := drains |}.

(** [WaitReady] returns the channel of the field; receiving from it blocks
    until the channel is closed. *)
Definition WaitReady (w : World) : nat := isReady (checker w).

Definition WaitReady_blocks (w : World) : Prop :=
  WaitReady w ∉ closedSignals w.

(** ** Execution on the shared state *)

(** What the environment decides: the results of system calls and of the
    platform bindings, the clock, cancellation, and the case a [select]
    takes. *)
Inductive Answer : Type :=
| AnsTime (t : Time)
| AnsFd (fd : Z) (err : Err)
| AnsErr (err : Err)
| AnsAddr (sa : Sockaddr) (err : Err)
| AnsEvents (events : list event) (err : Err)
| AnsCancelled (b : bool)
| AnsCase (fromPipe : bool).

Inductive Outcome (X : Type) : Type :=
| Done (x : X) (w : World)
| Blocked
| Panic
| Refused
| Spinning.

Arguments Done {X} x w.
Arguments Blocked {X}.
Arguments Panic {X}.
Arguments Refused {X}.
Arguments Spinning {X}.

(** A descriptor handed out by the kernel is one that is not open. *)
Definition fresh_fd (fd : Z) (w : World) : bool :=
  (0 <=? fd) && bool_decide (fd ∉ openFds w).

Definition needs_answer {X : Type} (op : Op X) : bool :=
  match op with
  | time_Now | unix_Socket _ _ _ | unix_SetNonblock _ _
  | unix_SetsockoptInt _ _ _ _ | unix_Connect _ _ | unix_Close _
  | parseSockAddr _ | createPoller | registerEvents _ _ | pollEvents _ _
  | select_pipe_or_timer _ _ | select_ctx_Done => true
  | _ => false
  end.

(** Modelled from the spec: [newPipePoolSyncPool] and the type of the
    delivery channels are declared in a file of the package that is missing;
    a delivery channel is single-slot. *)
Definition pipeCap : nat := 1.

(** Modelled from the spec: [getPipe] of the Channel Pool, declared in a file
    of the package that is missing.  Acquire returns a ready-to-use, empty
    delivery channel, newly made if the pool is empty. *)
Definition pool_getPipe (w : World) : chan * World :=
  match pipePool (checker w) with
  | [] =>
      (nextPipe w,
       set_nextPipe (S (nextPipe w)) (set_pipes (insert (nextPipe w) []) w))
  | p :: rest => (p, set_checker (set_pipePool (fun _ => rest)) w)
  end.

(** Modelled from the spec: [putBackPipe] of the Channel Pool, declared in a
    file of the package that is missing.  Release returns the channel to the
    pool.  The spec asks for channels to be drained on their way back and
    leaves open whether the caller or the release does it: when [poolDrains]
    is set the release discards a pending value, otherwise it does not. *)
Definition pool_putBackPipe (p : chan) (w : World) : World :=
  set_checker (set_pipePool (cons p))
    (if poolDrains w then set_pipes (alter (drop 1) p) w else w).

(** Modelled from the spec: [registerResultPipe] of the Completion Registry,
    declared in a file of the package that is missing.  Register associates
    the descriptor with the channel. *)
Definition registry_register (fd : Z) (p : chan) (w : World) : World :=
  set_checker (set_resultPipes (insert fd p)) w.

(** Modelled from the spec: [popResultPipe] of the Completion Registry,
    declared in a file of the package that is missing.  Pop retrieves and
    removes the entry in one step, and returns "not found" if there is
    none. *)
Definition registry_pop (fd : Z) (w : World) : option chan * World :=
  (resultPipes (checker w) !! fd,
   set_checker (set_resultPipes (delete fd)) w).

(** Modelled from the spec: [deregisterResultPipe] of the Completion
    Registry, declared in a file of the package that is missing.  Deregister
    removes the entry, popped before or not. *)
Definition registry_deregister (fd : Z) (w : World) : World :=
  set_checker (set_resultPipes (delete fd)) w.

(** One operation on the shared state.  The pool and the registry are the
    definitions above; the system calls and the platform bindings return
    what the environment answers, a successful [unix.Socket] or
    [createPoller] opening the descriptor and [unix.Close] releasing it; the
    rest follows Go: a locked mutex blocks, unlocking an unlocked mutex and
    closing a closed channel panic, a send needs a free slot, [make] yields a
    channel that is none of the existing ones, and a [select] takes the case
    the environment picks if that case is ready, the timer case moving the
    clock to the end of the wait. *)
Definition op_step {X : Type} (op : Op X) (a : option Answer) (w : World)
  : Outcome X :=
  match op in Op T return Outcome T with
  | time_Now =>
      match a with
      | Some (AnsTime t) =>
          if clock w <=? t then Done t (set_clock t w) else Refused
      | _ => Refused
      end
  | unix_Socket _ _ _ =>
      match a with
      | Some (AnsFd fd None) =>
          if fresh_fd fd w then Done (fd, None) (set_openFds (union {[fd]}) w)
          else Refused
      | Some (AnsFd fd (Some e)) => Done (fd, Some e) w
      | _ => Refused
      end
  | unix_CloseOnExec _ => Done tt w
  | unix_SetNonblock _ _ =>
      match a with Some (AnsErr e) => Done e w | _ => Refused end
  | unix_SetsockoptInt _ _ _ _ =>
      match a with Some (AnsErr e) => Done e w | _ => Refused end
  | unix_Connect _ _ =>
      match a with Some (AnsErr e) => Done e w | _ => Refused end
  | unix_Close fd =>
      match a with
      | Some (AnsErr e) => Done e (set_openFds (fun s => s ∖ {[fd]}) w)
      | _ => Refused
      end
  | parseSockAddr _ =>
      match a with Some (AnsAddr sa e) => Done (sa, e) w | _ => Refused end
  | createPoller =>
      match a with
      | Some (AnsFd fd None) =>
          if fresh_fd fd w then Done (fd, None) (set_openFds (union {[fd]}) w)
          else Refused
      | Some (AnsFd fd (Some e)) => Done (fd, Some e) w
      | _ => Refused
      end
  | registerEvents _ _ =>
      match a with Some (AnsErr e) => Done e w | _ => Refused end
  | pollEvents _ _ =>
      match a with
      | Some (AnsEvents evs e) => Done (evs, e) w
      | _ => Refused
      end
  | pollerLock_Lock =>
      if pollerLock (checker w) then Blocked
      else Done tt (set_checker (set_pollerLock true) w)
  | pollerLock_Unlock =>
      if pollerLock (checker w)
      then Done tt (set_checker (set_pollerLock false) w)
      else Panic
  | atomic_LoadInt32_pollerFd => Done (pollerFd (checker w)) w
  | atomic_StoreInt32_pollerFd v => Done tt (set_checker (set_pollerFd v) w)
  | close_isReady =>
      if bool_decide (isReady (checker w) ∈ closedSignals w) then Panic
      else Done tt (set_closedSignals (union {[isReady (checker w)]}) w)
  | make_isReady =>
      Done tt
        (set_checker
           (set_isReady (fresh (closedSignals w ∪ {[isReady (checker w)]})))
           w)
  | getPipe => Done (fst (pool_getPipe w)) (snd (pool_getPipe w))
  | putBackPipe p => Done tt (pool_putBackPipe p w)
  | registerResultPipe fd p => Done tt (registry_register fd p w)
  | popResultPipe fd => Done (fst (registry_pop fd w)) (snd (registry_pop fd w))
  | deregisterResultPipe fd => Done tt (registry_deregister fd w)
  | chan_send p v =>
      match pipes w !! p with
      | Some buf =>
          if (length buf <? pipeCap)%nat
          then Done tt (set_pipes (insert p (buf ++ [v])) w)
          else Blocked
      | None => Blocked
      end
  | select_pipe_or_timer p d =>
      match a with
      | Some (AnsCase true) =>
          match pipes w !! p with
          | Some (v :: buf) => Done (FromPipe v) (set_pipes (insert p buf) w)
          | _ => Blocked
          end
      | Some (AnsCase false) =>
          Done TimerFired (set_clock (clock w + Z.max 0 d) w)
      | _ => Refused
      end
  | select_ctx_Done =>
      match a with Some (AnsCancelled b) => Done b w | _ => Refused end
  end.

(** One goroutine alone: the answers are consumed in order by the operations
    that need one; [run] also returns the answers that are left. *)
Fixpoint run {A : Type} (p : Prog A) (answers : list Answer) (w : World)
  : Outcome (A * list Answer) :=
  match p with
  | Ret a => Done (a, answers) w
  | Spin => Spinning
  | Vis op k =>
      let a := if needs_answer op then head answers else None in
      let rest := if needs_answer op then tail answers else answers in
      match op_step op a w with
      | Done x w' => run (k x) rest w'
      | Blocked => Blocked
      | Panic => Panic
      | Refused => Refused
      | Spinning => Spinning
      end
  end.

Definition exec {A : Type} (p : Prog A) (answers : list Answer) (w : World)
  : Outcome A :=
  match run p answers w with
  | Done (a, _) w' => Done a w'
  | Blocked => Blocked
  | Panic => Panic
  | Refused => Refused
  | Spinning => Spinning
  end.

(** Several goroutines: a schedule names, step by step, the goroutine that
    performs its next operation and the answer it gets. *)
Record Config : Type := { world : World; threads : list (Prog Err) }.

Definition sched_step (c : Config) (s : nat * option Answer) : option Config :=
  match threads c !! fst s with
  | Some (Vis op k) =>
      match op_step op (snd s) (world c) with
      | Done x w' =>
          Some {| world := w'; threads := <[fst s := k x]> (threads c) |}
      | _ => None
      end
  | _ => None
  end.

Fixpoint run_sched (sched : list (nat * option Answer)) (c : Config)
  : option Config :=
  match sched with
  | [] => Some c
  | s :: rest =>
      match sched_step c s with
      | Some c' => run_sched rest c'
      | None => None
      end
  end.

(** ** Reading traces *)

(** The descriptor returned by a successful [unix.Socket]. *)
Definition socket_created (e : Event) : option Z :=
  match e with
  | Ev op x =>
      match op in Op T return T -> option Z with
      | unix_Socket _ _ _ =>
          fun r => match r with (fd, None) => Some fd | _ => None end
      | _ => fun _ => None
      end x
  end.

Definition created (tr : list Event) : option Z :=
  head (omap socket_created tr).

(** [unix.Close(fd)]. *)
Definition closes (fd : Z) (e : Event) : bool :=
  match e with
  | Ev op _ => match op with unix_Close fd' => fd =? fd' | _ => false end
  end.

Definition is_close (e : Event) : bool :=
  match e with
  | Ev op _ => match op with unix_Close _ => true | _ => false end
  end.

(** [unix.Connect(fd, _)]. *)
Definition connects (fd : Z) (e : Event) : bool :=
  match e with
  | Ev op _ => match op with unix_Connect fd' _ => fd =? fd' | _ => false end
  end.

(** The calls that make a socket of the wanted kind: [unix.Socket] for a
    stream socket of the family, and [unix.CloseOnExec]. *)
Definition makes_stream_socket (e : Event) : bool :=
  match e with
  | Ev op _ =>
      match op with
      | unix_Socket d t _ => (d =? AF_INET) && (t =? SOCK_STREAM)
      | _ => false
      end
  end.

Definition marks_cloexec (fd : Z) (e : Event) : bool :=
  match e with
  | Ev op _ =>
      match op with unix_CloseOnExec fd' => fd =? fd' | _ => false end
  end.

(** The two calls of [setSockOpts]. *)
Definition sets_nonblocking (fd : Z) (e : Event) : bool :=
  match e with
  | Ev op _ =>
      match op with
      | unix_SetNonblock fd' b => (fd =? fd') && b
      | _ => false
      end
  end.

Definition sets_quickack (fd : Z) (e : Event) : bool :=
  match e with
  | Ev op _ =>
      match op with
      | unix_SetsockoptInt fd' level opt _ =>
          (fd =? fd') && (level =? IPPROTO_TCP) && (opt =? TCP_QUICKACK)
      | _ => false
      end
  end.

(** Registry and pool operations on a given descriptor or channel. *)
Definition registers (fd : Z) (pipe : chan) (e : Event) : bool :=
  match e with
  | Ev op _ =>
      match op with
      | registerResultPipe fd' p => (fd =? fd') && (pipe =? p)%nat
      | _ => false
      end
  end.

Definition deregisters (fd : Z) (e : Event) : bool :=
  match e with
  | Ev op _ =>
      match op with deregisterResultPipe fd' => fd =? fd' | _ => false end
  end.

Definition submits_to_poller (fd : Z) (e : Event) : bool :=
  match e with
  | Ev op _ =>
      match op with registerEvents _ fd' => fd =? fd' | _ => false end
  end.

Definition acquired (e : Event) : option chan :=
  match e with
  | Ev op x =>
      match op in Op T return T -> option chan with
      | getPipe => fun p => Some p
      | _ => fun _ => None
      end x
  end.

Definition releases (pipe : chan) (e : Event) : bool :=
  match e with
  | Ev op _ =>
      match op with putBackPipe p => (pipe =? p)%nat | _ => false end
  end.

Definition is_release (e : Event) : bool :=
  match e with
  | Ev op _ => match op with putBackPipe _ => true | _ => false end
  end.

Definition is_deregister (e : Event) : bool :=
  match e with
  | Ev op _ => match op with deregisterResultPipe _ => true | _ => false end
  end.

Definition count (f : Event -> bool) (tr : list Event) : nat :=
  length (List.filter f tr).

(** The events of [tr] before the first one that satisfies [f]. *)
Fixpoint before (f : Event -> bool) (tr : list Event) : list Event :=
  match tr with
  | [] => []
  | e :: rest => if f e then [] else e :: before f rest
  end.

(** The events of [tr] after the first one that satisfies [f]. *)
Fixpoint after (f : Event -> bool) (tr : list Event) : list Event :=
  match tr with
  | [] => []
  | e :: rest => if f e then rest else after f rest
  end.

(** ** The connect-attempt outcome mapping *)

(** The three classes of results of the connect call, as the specification
    words them. *)
Definition spec_pending (p : Platform) (serr : Err) : Prop :=
  serr = Some (Errno (EALREADY p)) \/ serr = Some (Errno (EINPROGRESS p))
  \/ serr = Some (Errno (EINTR p)).

Definition spec_connected (p : Platform) (serr : Err) : Prop :=
  serr = None \/ serr = Some (Errno (EISCONN p))
  \/ (serr = Some (Errno (EINVAL p)) /\ GOOS p = "solaris").

(** ** The state at a given operation *)

Definition is_registerEvents (fd : Z) {X : Type} (op : Op X) : bool :=
  match op with registerEvents _ fd' => fd =? fd' | _ => false end.

(** The state in which [p], run alone from [w], is about to perform its first
    operation satisfying [stop]. *)
Fixpoint world_at {A : Type} (stop : forall X : Type, Op X -> bool)
    (p : Prog A) (answers : list Answer) (w : World) : option World :=
  match p with
  | Vis op k =>
      if stop _ op then Some w
      else
        let a := if needs_answer op then head answers else None in
        let rest := if needs_answer op then tail answers else answers in
        match op_step op a w with
        | Done x w' => world_at stop (k x) rest w'
        | _ => None
        end
  | _ => None
  end.

(** The channel that [getPipe] hands out in state [w]. *)
Definition next_acquired (w : World) : chan :=
  hd (nextPipe w) (pipePool (checker w)).

(** The last two events of a trace are the deregistration of [fd] and the
    release of [pipe], in this order. *)
Definition ends_with_cleanup (fd : Z) (pipe : chan) (tr : list Event) : bool :=
  match rev tr with
  | e2 :: e1 :: _ => deregisters fd e1 && releases pipe e2
  | _ => false
  end.

(** ** The polling loop: invariants and scripts *)

(** Every registered channel exists, is empty, and belongs to one descriptor
    only. *)
Definition registry_ready (w : World) : Prop :=
  forall fd pipe,
    resultPipes (checker w) !! fd = Some pipe ->
    pipes w !! pipe = Some []
    /\ forall fd', resultPipes (checker w) !! fd' = Some pipe -> fd' = fd.

(** The parts of the state that the handling of events leaves alone. *)
Definition same_control (w w' : World) : Prop :=
  pollerFd (checker w') = pollerFd (checker w)
  /\ pollerLock (checker w') = pollerLock (checker w)
  /\ isReady (checker w') = isReady (checker w)
  /\ pipePool (checker w') = pipePool (checker w)
  /\ closedSignals w' = closedSignals w
  /\ openFds w' = openFds w.

(** What the specification asks for one readiness event: if the registry has
    an entry for the descriptor, the entry is removed and the event's error
    is put on its channel; if it has none, nothing happens. *)
Definition spec_deliver (w : World) (ev : event) : World :=
  match resultPipes (checker w) !! Fd ev with
  | Some pipe =>
      set_pipes (alter (fun buf => buf ++ [EvErr ev]) pipe)
        (set_checker (set_resultPipes (delete (Fd ev))) w)
  | None => w
  end.

(** The answers the loop gets while it polls: not cancelled, then a batch. *)
Definition polls (batches : list (list event)) : list Answer :=
  flat_map (fun evs => [AnsCancelled false; AnsEvents evs None]) batches.

(** The two ways the loop ends. *)
Inductive loop_end : Type :=
| Cancelled
| WaitFailed (evs : list event) (e : error).

Definition end_answers (s : loop_end) : list Answer :=
  match s with
  | Cancelled => [AnsCancelled true]
  | WaitFailed evs e => [AnsCancelled false; AnsEvents evs (Some e)]
  end.

Definition end_result (s : loop_end) : Err :=
  match s with
  | Cancelled => None
  | WaitFailed _ e => Some (withMessage e "error during polling loop")
  end.

(** ** Pool correctness *)

(** Every pooled channel exists and holds no value. *)
Definition pool_clean (w : World) : Prop :=
  forall pipe, pipe ∈ pipePool (checker w) -> pipes w !! pipe = Some [].

(** The results of the goroutines that have returned. *)
Definition returned (c : Config) : list (option Err) :=
  map (fun p => match p with Ret r => Some r | _ => None end) (threads c).

(** A polling loop and two checks on one Checker. *)
Definition two_checks (p : Platform) (drains : bool) : Config :=
  {| world := NewChecker drains;
     threads := [CheckingLoop 2;
                 CheckAddr p "10.0.0.1:80" 100;
                 CheckAddr p "10.0.0.2:80" 100] |}.

Definition ECONNREFUSED : Z := 111.

(** The goroutines of [two_checks], by position. *)
Definition loop : nat := 0.
Definition check1 : nat := 1.
Definition check2 : nat := 2.

(** The first check (descriptor 5) is pending when the poller reports its
    connection refused; the loop pops its entry; before the loop sends, the
    check times out, deregisters and releases its channel. *)
Definition pop_then_timeout : list (nat * option Answer) :=
  [ (loop, None); (loop, None); (loop, Some (AnsFd 4 None)); (loop, None);
    (loop, None); (loop, None);
    (check1, Some (AnsTime 0));
    (check1, Some (AnsAddr (SockaddrInet4 80 [10; 0; 0; 1]) None));
    (check1, Some (AnsFd 5 None)); (check1, None);
    (check1, Some (AnsErr (Some (Errno 115))));
    (check1, Some (AnsTime 0)); (check1, None); (check1, None);
    (check1, None); (check1, Some (AnsErr None));
    (loop, Some (AnsCancelled false));
    (loop, Some (AnsEvents
                   [{| Fd := 5; EvErr := Some (Errno ECONNREFUSED) |}] None));
    (loop, None);
    (check1, Some (AnsCase false)); (check1, None); (check1, None) ].

(** The second check (descriptor 6) starts; the loop sends on the channel it
    popped; the first check closes its descriptor and returns; the second
    check finds its connect pending. *)
Definition late_send : list (nat * option Answer) :=
  [ (check2, Some (AnsTime 100));
    (check2, Some (AnsAddr (SockaddrInet4 80 [10; 0; 0; 2]) None));
    (check2, Some (AnsFd 6 None)); (check2, None);
    (loop, None);
    (check1, Some (AnsErr None));
    (check2, Some (AnsErr (Some (Errno 115))));
    (check2, Some (AnsTime 100)) ].

(** The second check acquires a channel, registers, waits, and cleans up. *)
Definition second_waits : list (nat * option Answer) :=
  [ (check2, None); (check2, None); (check2, None);
    (check2, Some (AnsErr None));
    (check2, Some (AnsCase true)); (check2, None); (check2, None);
    (check2, Some (AnsErr None)) ].

(** The other order: the second check acquires the released channel, which
    is empty, and registers; only then does the loop send on the channel it
    had popped for the first check. *)
Definition early_acquire : list (nat * option Answer) :=
  [ (check2, Some (AnsTime 100));
    (check2, Some (AnsAddr (SockaddrInet4 80 [10; 0; 0; 2]) None));
    (check2, Some (AnsFd 6 None)); (check2, None);
    (check2, Some (AnsErr (Some (Errno 115))));
    (check2, Some (AnsTime 100));
    (check2, None); (check2, None); (check2, None);
    (check2, Some (AnsErr None)) ].

Definition send_after_acquire : list (nat * option Answer) :=
  [ (loop, None);
    (check1, Some (AnsErr None));
    (check2, Some (AnsCase true)); (check2, None); (check2, None);
    (check2, Some (AnsErr None)) ].

(** The descriptors for which the schedule has the poller report an event. *)
Definition reported_fds (sched : list (nat * option Answer)) : list Z :=
  flat_map (fun s => match snd s with
                     | Some (AnsEvents evs _) => map Fd evs
                     | _ => []
                     end) sched.

(** ** The deadline of [CheckAddr] *)

(** The timeout a [select] of the trace waits for. *)
Definition waits (e : Event) : option Duration :=
  match e with
  | Ev op _ =>
      match op with
      | select_pipe_or_timer _ d => Some d
      | _ => None
      end
  end.


(** The answers up to a pending connect: the clock at entry, the parsed
    address, the new descriptor, the result of the connect call, the clock
    after it. *)
Definition pending_at (t0 : Time) (sa : Sockaddr) (fd : Z) (serr : Err)
    (t1 : Time) : list Answer :=
  [AnsTime t0; AnsAddr sa None; AnsFd fd None; AnsErr serr; AnsTime t1].


Definition EBADF : Z := 9.

(** The clock readings of a trace. *)
Definition clock_reading (e : Event) : option Time :=
  match e with
  | Ev op x =>
      match op in Op T return T -> option Time with
      | time_Now => fun t => Some t
      | _ => fun _ => None
      end x
  end.

(** ** Sample states *)

(** A Checker whose polling loop runs on poller descriptor 4. *)
Definition running_checker : World :=
  set_closedSignals (union {[0%nat]})
    (set_openFds (union {[4]})
       (set_checker (set_pollerFd 4) (NewChecker true))).

(** A Checker whose loop runs on descriptor 0, the descriptor the kernel
    hands out when the standard input is closed: the handle is recorded,
    the descriptor is open and the readiness channel has been closed. *)
Definition loop_on_descriptor_zero : World :=
  set_closedSignals (union {[0%nat]})
    (set_openFds (union {[0]})
       (set_checker (set_pollerFd 0) (NewChecker true))).

(** The same, with one check waiting on descriptor 5 with channel 0. *)
Definition one_waiting : World :=
  set_nextPipe 1%nat
    (set_pipes (insert 0%nat [])
       (set_openFds (union {[5]})
          (set_checker (set_resultPipes (insert 5 0%nat)) running_checker))).

(** ** Proof automation *)

(** Case analysis on the environment's answers, one operation at a time. *)
Ltac ask o :=
  repeat (simpl;
          first
            [ match goal with
              | |- context [o ?X ?n ?op] => generalize (o X n op); intro
              end
            | match goal with
              | |- context [connect_switch ?p ?e] =>
                  generalize (connect_switch p e); intro
              end
            | match goal with
              | |- context [match ?x with _ => _ end] => is_var x; destruct x
              end ]).

Ltac by_cases o := unfold trace_of, result_of; ask o; simpl.

(** Unfolding the pool and the registry. *)
Ltac open_store :=
  unfold pool_getPipe, pool_putBackPipe, registry_register, registry_pop,
    registry_deregister in *.

(** The end of a run of [waitConnectResult] on the shared state. *)
Ltac returned Hdrains Hpool :=
  intros [= <- <-]; open_store; simpl; rewrite ?Hdrains; simpl;
  rewrite ?Hpool; simpl;
  split; first [apply lookup_delete_eq | reflexivity].

(** ** More readings of traces *)

(** The lock of the Checker along a trace, starting held or not: [None] if
    the mutex is locked while held or unlocked while free, or if an operation
    that can block (a poll, a channel send, a select, a connect) is performed
    while it is held; otherwise whether it is held at the end. *)
Definition may_block {X : Type} (op : Op X) : bool :=
  match op with
  | pollEvents _ _ | chan_send _ _ | select_pipe_or_timer _ _
  | unix_Connect _ _ => true
  | _ => false
  end.

Fixpoint lock_discipline (held : bool) (tr : list Event) : option bool :=
  match tr with
  | [] => Some held
  | Ev op _ :: rest =>
      match op with
      | pollerLock_Lock => if held then None else lock_discipline true rest
      | pollerLock_Unlock => if held then lock_discipline false rest else None
      | _ => if held && may_block op then None else lock_discipline held rest
      end
  end.

(** The lookups of a trace in the registry, with what they found, and its
    channel sends. *)
Definition popped (e : Event) : option (Z * option chan) :=
  match e with
  | Ev op x =>
      match op in Op T return T -> option (Z * option chan) with
      | popResultPipe fd => fun found => Some (fd, found)
      | _ => fun _ => None
      end x
  end.

Definition sent (e : Event) : option (chan * Err) :=
  match e with
  | Ev op _ =>
      match op with
      | chan_send pipe v => Some (pipe, v)
      | _ => None
      end
  end.

(** What a batch sends, given what the lookups find: the error of each event
    whose lookup found a channel, on that channel, in the order of the
    batch. *)
Fixpoint deliveries (events : list event) (found : list (option chan))
  : list (chan * Err) :=
  match events, found with
  | ev :: events', Some pipe :: found' =>
      (pipe, EvErr ev) :: deliveries events' found'
  | _ :: events', None :: found' => deliveries events' found'
  | _, _ => []
  end.

(** Polls, cancellation checks and their answers. *)
Definition polled (e : Event) : option (Z * Duration) :=
  match e with
  | Ev op _ =>
      match op with
      | pollEvents pfd d => Some (pfd, d)
      | _ => None
      end
  end.

Definition poll_failed (e : Event) : bool :=
  match e with
  | Ev op x =>
      match op in Op T return T -> bool with
      | pollEvents _ _ => fun r => bool_decide (snd r <> None)
      | _ => fun _ => false
      end x
  end.

Definition saw_cancelled (e : Event) : bool :=
  match e with
  | Ev op x =>
      match op in Op T return T -> bool with
      | select_ctx_Done => fun b => b
      | _ => fun _ => false
      end x
  end.

(** The operations of the pool, of the registry and of the poller that a
    check performs when its connect is pending. *)
Definition asynchronous {X : Type} (op : Op X) : bool :=
  match op with
  | getPipe | putBackPipe _ | registerResultPipe _ _ | popResultPipe _
  | deregisterResultPipe _ | registerEvents _ _ | select_pipe_or_timer _ _
  | atomic_LoadInt32_pollerFd => true
  | _ => false
  end.

Definition is_asynchronous (e : Event) : bool :=
  match e with Ev op _ => asynchronous op end.

Definition is_socket_call (e : Event) : bool :=
  match e with
  | Ev op _ =>
      match op with
      | unix_Socket _ _ _ | unix_CloseOnExec _ | unix_SetNonblock _ _
      | unix_SetsockoptInt _ _ _ _ | unix_Connect _ _ | unix_Close _ => true
      | _ => false
      end
  end.

Definition is_connect (e : Event) : bool :=
  match e with
  | Ev op _ => match op with unix_Connect _ _ => true | _ => false end
  end.

(** Calls of the package's [createPoller] and stores to the recorded
    handle. *)
Definition is_createPoller (e : Event) : bool :=
  match e with
  | Ev op _ => match op with createPoller => true | _ => false end
  end.

Definition stored (e : Event) : option Z :=
  match e with
  | Ev op _ =>
      match op with
      | atomic_StoreInt32_pollerFd v => Some v
      | _ => None
      end
  end.

(** ** More readings of the state *)

(** A Checker with no loop running: no live handle, the lock free, the
    readiness channel open, the registry in order. *)
Definition idle (w : World) : Prop :=
  pollerFd (checker w) <= 0
  /\ pollerLock (checker w) = false
  /\ WaitReady_blocks w
  /\ registry_ready w.

Definition is_pollEvents {X : Type} (op : Op X) : bool :=
  match op with pollEvents _ _ => true | _ => false end.

(** [registerEvents(pfd, fd)], with both arguments fixed. *)
Definition is_registerEvents_on (pfd fd : Z) {X : Type} (op : Op X) : bool :=
  match op with
  | registerEvents pfd' fd' => (pfd =? pfd') && (fd =? fd')
  | _ => false
  end.

(** What the environment answered to the calls of a check. *)
Definition answered_parse (e : Event) : option (Sockaddr * Err) :=
  match e with
  | Ev op x =>
      match op in Op T return T -> option (Sockaddr * Err) with
      | parseSockAddr _ => fun r => Some r
      | _ => fun _ => None
      end x
  end.

Definition answered_socket (e : Event) : option (Z * Err) :=
  match e with
  | Ev op x =>
      match op in Op T return T -> option (Z * Err) with
      | unix_Socket _ _ _ => fun r => Some r
      | _ => fun _ => None
      end x
  end.

Definition answered_connect (e : Event) : option Err :=
  match e with
  | Ev op x =>
      match op in Op T return T -> option Err with
      | unix_Connect _ _ => fun r => Some r
      | _ => fun _ => None
      end x
  end.

Definition answered_registerEvents (e : Event) : option Err :=
  match e with
  | Ev op x =>
      match op in Op T return T -> option Err with
      | registerEvents _ _ => fun r => Some r
      | _ => fun _ => None
      end x
  end.

Definition answered_select (e : Event) : option selected :=
  match e with
  | Ev op x =>
      match op in Op T return T -> option selected with
      | select_pipe_or_timer _ _ => fun r => Some r
      | _ => fun _ => None
      end x
  end.

(** What [waitPipeTimeout] makes of the case its [select] took. *)
Definition selected_result (got : selected) : Err :=
  match got with
  | FromPipe ret => ret
  | TimerFired => Some ErrTimeout
  end.

(** Case analysis on the environment's answers that keeps what [connect]
    made of the result of the connect call. *)
Ltac ask_keeping o :=
  repeat (simpl;
          first
            [ match goal with
              | |- context [o ?X ?n ?op] => generalize (o X n op); intro
              end
            | match goal with
              | |- context [connect_switch ?p ?e] =>
                  let Hsw := fresh "Hsw" in
                  destruct (connect_switch p e) as [[] []] eqn:Hsw
              end
            | match goal with
              | |- context [match ?x with _ => _ end] => is_var x; destruct x
              end ]).

(** Unfolding [CheckAddr] down to its operations. *)
Ltac open_CheckAddr :=
  unfold trace_of, result_of, created, count, CheckAddr, createSocket,
    connect, waitConnectResult, waitPipeTimeout, pollerFD, defer.


(** A lookup in the registry or a channel send. *)
Definition pops_or_sends (e : Event) : bool :=
  match e with
  | Ev op _ =>
      match op with
      | popResultPipe _ | chan_send _ _ => true
      | _ => false
      end
  end.

(** The result of the loop: still running, cancelled, or failed. *)
Definition loop_result_of_trace (tr : list Event) : option Err :=
  match last tr with
  | Some (Ev op x) =>
      match op in Op T return T -> option Err with
      | select_ctx_Done => fun b => if b then Some None else None
      | pollEvents _ _ =>
          fun r => match snd r with
                   | Some e =>
                       Some (Some (withMessage e "error during polling loop"))
                   | None => None
                   end
      | _ => fun _ => None
      end x
  | None => None
  end.

(** A program that, started with the lock free, keeps to the discipline of
    [lock_discipline] and ends with the lock free, whatever it is
    answered. *)
Definition lock_safe {A : Type} (p : Prog A) : Prop :=
  forall (o : Oracle) (n : nat),
    lock_discipline false (fst (observe p o n)) = Some false.

(** An operation on the lock of the Checker. *)
Definition is_lock_op (e : Event) : bool :=
  match e with
  | Ev op _ =>
      match op with
      | pollerLock_Lock | pollerLock_Unlock => true
      | _ => false
      end
  end.

(** Reading a field of a state built with the setters. *)
Ltac project_state :=
  cbn [checker pipes nextPipe closedSignals openFds clock poolDrains
         pipePool pollerLock resultPipes pollerFd isReady
         set_checker set_pipes set_nextPipe set_closedSignals set_openFds
         set_clock set_pipePool set_pollerLock set_resultPipes set_pollerFd
         set_isReady].

(** * client.go: the retrying client *)

(** Errors of the client: those it receives (from the transport, the body
    reader, the context, the policy, the handler) and the one [Do] makes
    itself when it gives up. *)
Inductive cerror : Type :=
| received (msg : string)
| givingUp (method url : string) (attempts : Z).

Abbreviation CErr := (option cerror).

(** [*http.Response], as far as [Do] looks at it: the status code and the
    body, named by a number. *)
Record Response : Type := { StatusCode : Z; Body : nat }.

(** What [req.body()] returns: a reader, and whether its dynamic type is an
    [io.ReadCloser]. *)
Record Reader : Type := { reader : nat; isReadCloser : bool }.

(** [Request]: whether the [body] function is set, and the method and URL of
    the embedded [*http.Request]. *)
Record Request : Type := { body : bool; Method : string; URL : string }.

(** [Client].  For [Logger], the two log hooks and [ErrorHandler], [Do]
    tests the field against nil, and the Boolean tells whether it is set;
    [HTTPClient], [RetryPolicy] and [Backoff] are called without a test,
    are taken to be set, as [NewClient] sets them, and appear as
    operations. *)
Record Client : Type := {
  Logger : bool;
  RetryWaitMin : Duration;
  RetryWaitMax : Duration;
  RetryMax : Z;
  RequestLogHook : bool;
  ResponseLogHook : bool;
  ErrorHandler : bool
}.

(** The lines that [Do] and [drainBody] print. *)
Inductive LogLine : Type :=
| RequestFailed (method url : string) (err : cerror)
| Retrying (method url : string) (code : Z) (wait : Duration) (remain : Z)
| ReadingBodyFailed (err : cerror).

(** [int] is 64 bits wide. *)
Definition int64 (z : Z) : Z := (z + 2 ^ 63) mod 2 ^ 64 - 2 ^ 63.

Definition respReadLimit : Z := 4096.

(** The calls that [Do] and [drainBody] make. *)
Inductive COp : Type -> Type :=
| req_body : COp (Reader * CErr)
| set_req_Body (r : Reader) (nopCloser : bool) : COp unit
| call_RequestLogHook (i : Z) : COp unit
| HTTPClient_Do : COp (option Response * CErr)
| call_RetryPolicy (resp : option Response) (err : CErr) : COp (bool * CErr)
| Logger_Printf (line : LogLine) : COp unit
| call_ResponseLogHook (resp : option Response) : COp unit
| call_Backoff (min max : Duration) (attemptNum : Z) (resp : option Response)
  : COp Duration
| select_Done_or_After (wait : Duration) : COp bool
| Context_Err : COp CErr
| call_ErrorHandler (resp : option Response) (err : CErr) (numTries : Z)
  : COp (option Response * CErr)
| Body_Close (b : nat) : COp unit
| io_Copy_Discard (b : nat) (limit : Z) : COp CErr.

(** Programs over these calls. *)
Inductive CProg (A : Type) : Type :=
| CRet (a : A)
| CVis (X : Type) (op : COp X) (k : X -> CProg A)
| CSpin.

Arguments CRet {A} a.
Arguments CVis {A X} op k.
Arguments CSpin {A}.

Fixpoint cbind {A B : Type} (p : CProg A) (f : A -> CProg B) : CProg B :=
  match p with
  | CRet a => f a
  | CVis op k => CVis op (fun x => cbind (k x) f)
  | CSpin => CSpin
  end.

Definition ccall {X : Type} (op : COp X) : CProg X := CVis op CRet.

Declare Scope cprog_scope.
Delimit Scope cprog_scope with cprog.
Notation "x <~ p ;; q" := (cbind p (fun x => q))
  (at level 100, p at next level, right associativity) : cprog_scope.
Notation "p ;;~ q" := (cbind p (fun _ => q))
  (at level 100, right associativity) : cprog_scope.

(** [if cond { call }]. *)
Definition when (cond : bool) (p : CProg unit) : CProg unit :=
  if cond then p else CRet tt.

Definition drainBody (c : Client) (b : nat) : CProg unit :=
  (err <~ ccall (io_Copy_Discard b respReadLimit) ;;
   match err with
   | Some e => when (Logger c) (ccall (Logger_Printf (ReadingBodyFailed e)))
   | None => CRet tt
   end ;;~
   ccall (Body_Close b))%cprog.

(** The statements of [Do] after its loop. *)
Definition after_loop (c : Client) (req : Request) (resp : option Response)
    (err : CErr) : CProg (option Response * CErr) :=
  (if ErrorHandler c then
     ccall (call_ErrorHandler resp err (int64 (RetryMax c + 1)))
   else
     match resp with
     | Some rs => ccall (Body_Close (Body rs))
     | None => CRet tt
     end ;;~
     CRet (None,
           Some (givingUp (Method req) (URL req)
                   (int64 (RetryMax c + 1)))))%cprog.

(** The loop of [Do], from iteration [i] on, with the response left by the
    iteration before; at most [fuel] iterations. *)
Fixpoint Do_from (fuel : nat) (c : Client) (req : Request) (i : Z)
    (resp : option Response) : CProg (option Response * CErr) :=
  match fuel with
  | O => CSpin
  | S fuel' =>
      let attempt : CProg (option Response * CErr) :=
        (when (RequestLogHook c) (ccall (call_RequestLogHook i)) ;;~
         r <~ ccall HTTPClient_Do ;;
         let '(resp, err) := r in
         let code := match resp with
                     | Some rs => StatusCode rs
                     | None => 0
                     end in
         chk <~ ccall (call_RetryPolicy resp err) ;;
         let '(checkOK, checkErr) := chk in
         match err with
         | Some e =>
             when (Logger c)
               (ccall (Logger_Printf
                         (RequestFailed (Method req) (URL req) e)))
         | None =>
             when (ResponseLogHook c) (ccall (call_ResponseLogHook resp))
         end ;;~
         if negb checkOK then
           CRet (resp, match checkErr with Some _ => checkErr | None => err end)
         else
           let remain := int64 (RetryMax c - i) in
           if remain <=? 0 then after_loop c req resp err
           else
             match err, resp with
             | None, Some rs => drainBody c (Body rs)
             | _, _ => CRet tt
             end ;;~
             wait <~ ccall (call_Backoff (RetryWaitMin c) (RetryWaitMax c)
                              i resp) ;;
             when (Logger c)
               (ccall (Logger_Printf
                         (Retrying (Method req) (URL req) code wait
                            remain))) ;;~
             cancelled <~ ccall (select_Done_or_After wait) ;;
             if (cancelled : bool) then
               e <~ ccall Context_Err ;; CRet (None, e)
             else Do_from fuel' c req (int64 (i + 1)) resp)%cprog in
      if body req then
        (r <~ ccall req_body ;;
         let '(rd, err) := r in
         match err with
         | Some _ => CRet (resp, err)
         | None =>
             ccall (set_req_Body rd (negb (isReadCloser rd))) ;;~ attempt
         end)%cprog
      else attempt
  end.

Definition Do (fuel : nat) (c : Client) (req : Request)
  : CProg (option Response * CErr) :=
  Do_from fuel c req 0 None.

(** [PassthroughErrorHandler]. *)
Definition PassthroughErrorHandler (resp : option Response) (err : CErr)
    (numTries : Z) : option Response * CErr :=
  (resp, err).

(** [defaultRetryPolicy], given what [ctx.Err()] returns; [None] stands for
    the panic of reading the status of a nil response. *)
Definition defaultRetryPolicy (ctxErr : CErr) (resp : option Response)
    (err : CErr) : option (bool * CErr) :=
  match ctxErr with
  | Some _ => Some (false, ctxErr)
  | None =>
      match err with
      | Some _ => Some (true, err)
      | None =>
          match resp with
          | None => None
          | Some rs =>
              if (StatusCode rs =? 0)
                 || ((500 <=? StatusCode rs) && negb (StatusCode rs =? 501))
              then Some (true, None)
              else Some (false, None)
          end
      end
  end.

(** Traces of the client. *)
Inductive CEvent : Type :=
| CEv (X : Type) (op : COp X) (x : X).

Arguments CEv {X} op x.

Definition COracle : Type := forall X : Type, nat -> COp X -> X.

Fixpoint cobserve {A : Type} (p : CProg A) (o : COracle) (n : nat)
  : list CEvent * option A :=
  match p with
  | CRet a => ([], Some a)
  | CSpin => ([], None)
  | CVis op k =>
      let x := o _ n op in
      let '(tr, r) := cobserve (k x) o (S n) in
      (CEv op x :: tr, r)
  end.

Definition ctrace {A : Type} (p : CProg A) (o : COracle) : list CEvent :=
  fst (cobserve p o 0).

Definition cresult {A : Type} (p : CProg A) (o : COracle) : option A :=
  snd (cobserve p o 0).

(** ** Readings of the client's traces *)

(** What [HTTPClient.Do] returned. *)
Definition attempt_of (e : CEvent) : option (option Response * CErr) :=
  match e with
  | CEv op x =>
      match op in COp X return X -> option (option Response * CErr) with
      | HTTPClient_Do => fun x => Some x
      | _ => fun _ => None
      end x
  end.

(** The body of a response that [HTTPClient.Do] returned. *)
Definition response_body (e : CEvent) : option nat :=
  match attempt_of e with
  | Some (Some rs, _) => Some (Body rs)
  | _ => None
  end.

(** What [RetryPolicy] returned. *)
Definition verdict_of (e : CEvent) : option (bool * CErr) :=
  match e with
  | CEv op x =>
      match op in COp X return X -> option (bool * CErr) with
      | call_RetryPolicy _ _ => fun x => Some x
      | _ => fun _ => None
      end x
  end.

(** A call of [Backoff]: its bounds, its attempt number and its answer. *)
Definition backoff_of (e : CEvent)
  : option (Duration * Duration * Z * Duration) :=
  match e with
  | CEv op x =>
      match op in COp X
            return X -> option (Duration * Duration * Z * Duration) with
      | call_Backoff min max i _ => fun x => Some (min, max, i, x)
      | _ => fun _ => None
      end x
  end.

(** The duration of a wait of [Do]. *)
Definition waited (e : CEvent) : option Duration :=
  match e with
  | CEv op _ =>
      match op with
      | select_Done_or_After wait => Some wait
      | _ => None
      end
  end.

(** Whether a wait of [Do] ended with the context done. *)
Definition wait_cancelled (e : CEvent) : option bool :=
  match e with
  | CEv op x =>
      match op in COp X return X -> option bool with
      | select_Done_or_After _ => fun x => Some x
      | _ => fun _ => None
      end x
  end.

(** The body that is closed, and the body that is read to its limit. *)
Definition closed_body (e : CEvent) : option nat :=
  match e with
  | CEv op _ =>
      match op with
      | Body_Close b => Some b
      | _ => None
      end
  end.

Definition drained_body (e : CEvent) : option nat :=
  match e with
  | CEv op _ =>
      match op with
      | io_Copy_Discard b _ => Some b
      | _ => None
      end
  end.

(** The policy's answer is one that [defaultRetryPolicy] gives for the
    response and error it was asked about, for some state of the context. *)
Definition answers_as_default (e : CEvent) : Prop :=
  match e with
  | CEv op x =>
      match op in COp X return X -> Prop with
      | call_RetryPolicy resp err =>
          fun a => exists ctxErr, defaultRetryPolicy ctxErr resp err = Some a
      | _ => fun _ => True
      end x
  end.

(** The error with which [req.body()] failed. *)
Definition body_failure (e : CEvent) : option cerror :=
  match e with
  | CEv op x =>
      match op in COp X return X -> option cerror with
      | req_body => fun x => snd x
      | _ => fun _ => None
      end x
  end.

(** What [ctx.Err()] returned after the context was done. *)
Definition context_error (e : CEvent) : option CErr :=
  match e with
  | CEv op x =>
      match op in COp X return X -> option CErr with
      | Context_Err => fun x => Some x
      | _ => fun _ => None
      end x
  end.

(** A call of [ErrorHandler]: its arguments and its answer. *)
Definition handled (e : CEvent)
  : option (option Response * CErr * Z * (option Response * CErr)) :=
  match e with
  | CEv op x =>
      match op in COp X
            return X -> option (option Response * CErr * Z
                                * (option Response * CErr)) with
      | call_ErrorHandler resp err k => fun x => Some (resp, err, k, x)
      | _ => fun _ => None
      end x
  end.

(** ** The shape of a run of [Do] *)

(** Logging, the hooks and a successful re-reading of the request body are
    set aside; the other calls are the ones the readings above look at. *)
Definition loud (e : CEvent) : bool :=
  match e with
  | CEv op x =>
      match op in COp X return X -> bool with
      | req_body =>
          fun x => match snd x with Some _ => true | None => false end
      | set_req_Body _ _ | call_RequestLogHook _ | Logger_Printf _
      | call_ResponseLogHook _ => fun _ => false
      | _ => fun _ => true
      end x
  end.

(** [drainBody] on the body of a response received without error. *)
Definition draining (resp : option Response) (err copied : CErr)
  : list CEvent :=
  match err, resp with
  | None, Some rs =>
      [CEv (io_Copy_Discard (Body rs) respReadLimit) copied;
       CEv (Body_Close (Body rs)) tt]
  | _, _ => []
  end.

Definition closing (resp : option Response) : list CEvent :=
  match resp with
  | Some rs => [CEv (Body_Close (Body rs)) tt]
  | None => []
  end.

(** The loud calls and the result of the loop of [Do] from iteration [i]
    on, the six ways it can end and the one way it goes round. *)
Inductive Do_run (c : Client) (req : Request)
  : nat -> Z -> option Response -> list CEvent
    -> option (option Response * CErr) -> Prop :=
| run_out_of_fuel i resp0 :
    Do_run c req O i resp0 [] None
| run_body_fails fuel i resp0 rd e :
    body req = true ->
    Do_run c req (S fuel) i resp0
      [CEv req_body (rd, Some e)] (Some (resp0, Some e))
| run_stop fuel i resp0 resp err ce :
    Do_run c req (S fuel) i resp0
      [CEv HTTPClient_Do (resp, err);
       CEv (call_RetryPolicy resp err) (false, ce)]
      (Some (resp, match ce with Some _ => ce | None => err end))
| run_handler fuel i resp0 resp err ce a :
    int64 (RetryMax c - i) <= 0 ->
    ErrorHandler c = true ->
    Do_run c req (S fuel) i resp0
      [CEv HTTPClient_Do (resp, err);
       CEv (call_RetryPolicy resp err) (true, ce);
       CEv (call_ErrorHandler resp err (int64 (RetryMax c + 1))) a]
      (Some a)
| run_gives_up fuel i resp0 resp err ce :
    int64 (RetryMax c - i) <= 0 ->
    ErrorHandler c = false ->
    Do_run c req (S fuel) i resp0
      (CEv HTTPClient_Do (resp, err)
       :: CEv (call_RetryPolicy resp err) (true, ce)
       :: closing resp)
      (Some (None,
             Some (givingUp (Method req) (URL req)
                     (int64 (RetryMax c + 1)))))
| run_cancelled fuel i resp0 resp err ce copied wait e :
    0 < int64 (RetryMax c - i) ->
    Do_run c req (S fuel) i resp0
      (CEv HTTPClient_Do (resp, err)
       :: CEv (call_RetryPolicy resp err) (true, ce)
       :: draining resp err copied
       ++ [CEv (call_Backoff (RetryWaitMin c) (RetryWaitMax c) i resp) wait;
           CEv (select_Done_or_After wait) true;
           CEv Context_Err e])
      (Some (None, e))
| run_retry fuel i resp0 resp err ce copied wait tr r :
    0 < int64 (RetryMax c - i) ->
    Do_run c req fuel (int64 (i + 1)) resp tr r ->
    Do_run c req (S fuel) i resp0
      (CEv HTTPClient_Do (resp, err)
       :: CEv (call_RetryPolicy resp err) (true, ce)
       :: draining resp err copied
       ++ CEv (call_Backoff (RetryWaitMin c) (RetryWaitMax c) i resp) wait
       :: CEv (select_Done_or_After wait) false
       :: tr)
      r.

(** Case analysis along one iteration of [Do]. *)
Ltac cask o :=
  repeat (simpl; unfold when, after_loop, drainBody;
          first
            [ match goal with
              | |- context [o ?X ?n ?op] => generalize (o X n op); intro
              end
            | match goal with
              | |- context [match ?x with _ => _ end] => is_var x; destruct x
              end
            | match goal with
              | |- context [match negb ?b with _ => _ end] =>
                  is_var b; destruct b
              end
            | match goal with
              | |- context [match ?f ?c with _ => _ end] =>
                  is_var c; destruct (f c) eqn:?
              end
            | match goal with
              | |- context [int64 ?z <=? 0] =>
                  destruct (Z.leb_spec (int64 z) 0)
              end ]);
  simpl.

(** Naming the shape of a run whose calls are listed. *)
Ltac Do_shape :=
  match goal with
  | |- Do_run ?c ?req _ ?i ?r0
         (CEv HTTPClient_Do (?resp, ?err) :: CEv _ (true, ?ce)
          :: CEv (io_Copy_Discard _ _) ?cp :: _
          :: CEv (call_Backoff _ _ _ _) ?w
          :: CEv (select_Done_or_After _) true :: CEv Context_Err ?e :: _)
         _ =>
      apply (run_cancelled c req _ i r0 resp err ce cp w e); assumption
  | |- Do_run ?c ?req _ ?i ?r0
         (CEv HTTPClient_Do (?resp, ?err) :: CEv _ (true, ?ce)
          :: CEv (call_Backoff _ _ _ _) ?w
          :: CEv (select_Done_or_After _) true :: CEv Context_Err ?e :: _)
         _ =>
      apply (run_cancelled c req _ i r0 resp err ce None w e); assumption
  | |- Do_run ?c ?req _ ?i ?r0
         (CEv HTTPClient_Do (?resp, ?err) :: CEv _ (true, ?ce)
          :: CEv (io_Copy_Discard _ _) ?cp :: _
          :: CEv (call_Backoff _ _ _ _) ?w
          :: CEv (select_Done_or_After _) false :: ?tl)
         ?r =>
      apply (run_retry c req _ i r0 resp err ce cp w tl r); assumption
  | |- Do_run ?c ?req _ ?i ?r0
         (CEv HTTPClient_Do (?resp, ?err) :: CEv _ (true, ?ce)
          :: CEv (call_Backoff _ _ _ _) ?w
          :: CEv (select_Done_or_After _) false :: ?tl)
         ?r =>
      apply (run_retry c req _ i r0 resp err ce None w tl r); assumption
  | |- Do_run ?c ?req _ ?i ?r0
         (CEv HTTPClient_Do (?resp, ?err) :: CEv _ (true, ?ce) :: _) _ =>
      first [ apply (run_handler c req _ i r0 resp err ce); assumption
            | apply (run_gives_up c req _ i r0 resp err ce); assumption ]
  | |- Do_run ?c ?req _ ?i ?r0
         (CEv HTTPClient_Do (?resp, ?err) :: CEv _ (false, ?ce) :: _) _ =>
      apply (run_stop c req _ i r0 resp err ce)
  | |- Do_run ?c ?req _ ?i ?r0 [CEv req_body (?rd, Some ?e)] _ =>
      apply (run_body_fails c req _ i r0 rd e); assumption
  end.

(** An environment for examples: every attempt gets the same response and
    error, the policy is a function, every wait ends the same way, and
    [req.body()] succeeds at the calls numbered by [body_ok]. *)
Definition scripted (resp : option Response) (err : CErr)
    (policy : option Response -> CErr -> bool * CErr) (cancel : bool)
    (body_ok : nat -> bool) : COracle :=
  fun X n op =>
    match op in COp X return X with
    | req_body =>
        ({| reader := 0; isReadCloser := false |},
         if body_ok n then None else Some (received "unreadable"))
    | set_req_Body _ _ => tt
    | call_RequestLogHook _ => tt
    | HTTPClient_Do => (resp, err)
    | call_RetryPolicy rs e => policy rs e
    | Logger_Printf _ => tt
    | call_ResponseLogHook _ => tt
    | call_Backoff min _ _ _ => min
    | select_Done_or_After _ => cancel
    | Context_Err => Some (received "context canceled")
    | call_ErrorHandler rs e k => PassthroughErrorHandler rs e k
    | Body_Close _ => tt
    | io_Copy_Discard _ _ => None
    end.

(** [defaultRetryPolicy] with a live context, as a policy of [scripted]. *)
Definition live_default_policy (resp : option Response) (err : CErr)
  : bool * CErr :=
  match defaultRetryPolicy None resp err with
  | Some a => a
  | None => (false, None)
  end.

Definition example_client (retries : Z) (handler : bool) : Client :=
  {| Logger := true; RetryWaitMin := time_Second;
     RetryWaitMax := 10 * time_Second; RetryMax := retries;
     RequestLogHook := false; ResponseLogHook := true;
     ErrorHandler := handler |}.

Definition example_request (with_body : bool) : Request :=
  {| body := with_body; Method := "GET"; URL := "http://example.test/" |}.

(** The readings that do not see the calls set aside by [loud]. *)
Ltac silent :=
  let x := fresh "x" in
  intros [? [] x]; simpl; try discriminate; try reflexivity;
  destruct x as [? []]; simpl; try discriminate; reflexivity.

(** [simpl] on a reading of a trace, keeping the reading's name. *)
Ltac read_trace :=
  simpl;
  repeat match goal with
         | |- context [list_omap ?A ?B ?f ?l] =>
             change (list_omap A B f l) with (omap f l)
         end.

(** * Theorems *)

Lemma distinct_codes_linux : distinct_codes linux.
Proof.
  unfold distinct_codes. apply (bool_decide_unpack _). vm_compute. exact I.
Qed.

Lemma distinct_codes_solaris : distinct_codes solaris.
Proof.
  unfold distinct_codes. apply (bool_decide_unpack _). vm_compute. exact I.
Qed.

Example connect_linux_in_progress :
  connect_switch linux (Some (Errno 115)) = (false, None)
  /\ connect_switch linux (Some (Errno 114)) = (false, None)
  /\ connect_switch linux (Some (Errno 4)) = (false, None).
Proof. repeat split. Qed.

Example connect_linux_connected :
  connect_switch linux None = (true, None)
  /\ connect_switch linux (Some (Errno 106)) = (true, None).
Proof. repeat split. Qed.

Example connect_EINVAL_by_platform :
  connect_switch solaris (Some (Errno 22)) = (true, None)
  /\ connect_switch linux (Some (Errno 22)) = (false, Some (Errno 22))
  /\ connect_switch darwin (Some (Errno 22)) = (false, Some (Errno 22)).
Proof. repeat split. Qed.

Example connect_linux_refused :
  connect_switch linux (Some (Errno 111)) = (false, Some (Errno 111)).
Proof. reflexivity. Qed.

Lemma observe_connect (p : Platform) (fd : Z) (addr : Sockaddr) (o : Oracle)
    (n : nat) :
  observe (connect p fd addr) o n =
  ([Ev (unix_Connect fd addr) (o _ n (unix_Connect fd addr))],
   Some (connect_switch p (o _ n (unix_Connect fd addr)))).
Proof. reflexivity. Qed.

Lemma connect_switch_pending (p : Platform) (serr : Err) :
  connect_switch p serr = (false, None) <-> spec_pending p serr.
Proof.
  unfold connect_switch, spec_pending.
  repeat case_bool_decide; split; intros Hx; try tauto; try congruence;
    injection Hx as ->; tauto.
Qed.

Lemma connect_switch_connected (p : Platform) (serr : Err) :
  distinct_codes p ->
  connect_switch p serr = (true, None) <-> spec_connected p serr.
Proof.
  unfold distinct_codes, connect_switch, spec_connected. intros Hd.
  repeat match goal with
         | H : NoDup (_ :: _) |- _ => apply NoDup_cons in H; destruct H
         end.
  repeat case_bool_decide; split; intros Hx; try tauto; try congruence;
    exfalso;
    repeat match goal with
           | H : _ \/ _ |- _ => destruct H
           | H : _ /\ _ |- _ => destruct H
           end;
    subst; try congruence;
    repeat match goal with
           | H : Some (Errno ?a) = Some (Errno ?b) |- _ =>
               injection H as H; rewrite ?H in *
           end;
    set_solver.
Qed.

Lemma connect_switch_failure (p : Platform) (serr : Err) :
  ~ spec_pending p serr -> ~ spec_connected p serr ->
  exists e, serr = Some e /\ connect_switch p serr = (false, Some e).
Proof.
  unfold connect_switch, spec_pending, spec_connected. intros Hp Hc.
  destruct serr as [e |]; [| tauto]. exists e. split; [reflexivity |].
  repeat case_bool_decide; try reflexivity; tauto.
Qed.

(** C1.  Whatever the connect call returns, [connect] reports pending
    (false, nil) exactly when the result is EALREADY, EINPROGRESS or EINTR,
    reports success (true, nil) exactly when it is nil, EISCONN, or EINVAL on
    Solaris, and in every other case reports failure with the code it got. *)
Theorem connect_outcome_mapping (p : Platform) (fd : Z) (addr : Sockaddr)
    (o : Oracle) (n : nat) :
  distinct_codes p ->
  let serr := o _ n (unix_Connect fd addr) in
  let reported := snd (observe (connect p fd addr) o n) in
  (reported = Some (false, None) <-> spec_pending p serr)
  /\ (reported = Some (true, None) <-> spec_connected p serr)
  /\ (~ spec_pending p serr -> ~ spec_connected p serr ->
      exists e, serr = Some e /\ reported = Some (false, Some e)).
Proof.
  intros Hd serr reported. subst reported. rewrite observe_connect. simpl.
  fold serr. split; [| split].
  - rewrite <- connect_switch_pending. split; congruence.
  - rewrite <- (connect_switch_connected p serr Hd). split; congruence.
  - intros Hp Hc.
    destruct (connect_switch_failure p serr Hp Hc) as (e & He & Hs).
    exists e. split; [exact He | congruence].
Qed.

Lemma connect_outcome_mapping_witness :
  distinct_codes linux
  /\ (snd (observe (connect linux 3 (SockaddrInet4 80 [127; 0; 0; 1]))
             (connect_answers (Some (Errno 22))) 0)
      = Some (false, Some (Errno 22))).
Proof.
  split; [exact distinct_codes_linux |].
  destruct (connect_outcome_mapping linux 3 (SockaddrInet4 80 [127; 0; 0; 1])
              (connect_answers (Some (Errno 22))) 0 distinct_codes_linux)
    as (_ & _ & Hfail).
  destruct Hfail as (e & He & Hr).
  - unfold spec_pending; simpl. intros [H | [H | H]]; discriminate H.
  - unfold spec_connected; simpl.
    intros [H | [H | [_ H]]]; discriminate H.
  - simpl in He. injection He as <-. exact Hr.
Defined.


(** ** Traces of [CheckAddr] *)

(** C2.  The socket at the connect attempt.  In every run of [CheckAddr] in
    which the socket is created, the connect is attempted once, on a stream
    socket of family AF_INET that has been marked close-on-exec; but
    [unix.SetNonblock] and the [TCP_QUICKACK] option are never applied to
    the descriptor, before the connect or after: [setSockOpts] is not
    reached from [CheckAddr]. *)
Theorem CheckAddr_connects_with_options_unset (p : Platform) (addr : string)
    (timeout : Duration) (o : Oracle) (fd : Z) :
  let tr := trace_of (CheckAddr p addr timeout) o in
  created tr = Some fd ->
  count (connects fd) tr = 1%nat
  /\ count makes_stream_socket (before (connects fd) tr) = 1%nat
  /\ count (marks_cloexec fd) (before (connects fd) tr) = 1%nat
  /\ count (sets_nonblocking fd) tr = 0%nat
  /\ count (sets_quickack fd) tr = 0%nat.
Proof.
  intros tr. subst tr.
  unfold created, count, CheckAddr, createSocket, connect, waitConnectResult,
    waitPipeTimeout, pollerFD, defer.
  by_cases o; intros Hc; try discriminate Hc; injection Hc as ->;
    rewrite ?Z.eqb_refl; simpl; rewrite ?Z.eqb_refl; simpl; auto.
Qed.

Lemma CheckAddr_connects_with_options_unset_witness :
  let tr := trace_of (CheckAddr linux "127.0.0.1:80" time_Second)
              (connect_answers (Some (Errno 115))) in
  created tr = Some 3
  /\ before (connects 3) tr
     = [Ev time_Now 0;
        Ev (parseSockAddr "127.0.0.1:80")
          (SockaddrInet4 80 [127; 0; 0; 1], None);
        Ev (unix_Socket AF_INET SOCK_STREAM 0) (3, None);
        Ev (unix_CloseOnExec 3) tt]
  /\ count (connects 3) tr = 1%nat
  /\ count (sets_nonblocking 3) tr = 0%nat
  /\ count (sets_quickack 3) tr = 0%nat.
Proof.
  intros tr. split; [reflexivity |]. split; [reflexivity |].
  destruct (CheckAddr_connects_with_options_unset linux "127.0.0.1:80"
              time_Second (connect_answers (Some (Errno 115))) 3 eq_refl)
    as (Hconn & _ & _ & Hnb & Hqa).
  split; [exact Hconn |]. split; [exact Hnb | exact Hqa].
Defined.

Lemma connect_never_closes (p : Platform) (fd : Z) (addr : Sockaddr)
    (o : Oracle) (n : nat) :
  count is_close (fst (observe (connect p fd addr) o n)) = 0%nat.
Proof. reflexivity. Qed.

(** The five ways out of [CheckAddr] once the socket exists, each ending with
    the close of descriptor 3. *)
Example CheckAddr_return_paths :
  let check := CheckAddr linux "127.0.0.1:80" time_Second in
  let ends_closing o := option_map (closes 3) (last (trace_of check o)) in
  (result_of check (answers_with None None TimerFired) = Some None
   /\ ends_closing (answers_with None None TimerFired) = Some true)
  /\ (result_of check (answers_with (Some (Errno 111)) None TimerFired)
      = Some (Some (ErrConnect (Errno 111)))
      /\ ends_closing (answers_with (Some (Errno 111)) None TimerFired)
         = Some true)
  /\ (result_of check
        (answers_with (Some (Errno 115)) None (FromPipe (Some (Errno 111))))
      = Some (Some (Errno 111))
      /\ ends_closing
           (answers_with (Some (Errno 115)) None
              (FromPipe (Some (Errno 111))))
         = Some true)
  /\ (result_of check
        (answers_with (Some (Errno 115)) (Some (Errno 9)) TimerFired)
      = Some (Some (Errno 9))
      /\ ends_closing
           (answers_with (Some (Errno 115)) (Some (Errno 9)) TimerFired)
         = Some true)
  /\ (result_of check (answers_with (Some (Errno 115)) None TimerFired)
      = Some (Some ErrTimeout)
      /\ ends_closing (answers_with (Some (Errno 115)) None TimerFired)
         = Some true).
Proof. repeat split. Qed.

(** C3.  When socket creation succeeds, every run of [CheckAddr] returns, and
    it closes the descriptor exactly once, as the last thing it does: after a
    synchronous success or error of the connect, after a delivered result,
    after a failed registration with the poller and after a local timeout.
    [connect] itself closes nothing. *)
Theorem CheckAddr_closes_descriptor (p : Platform) (addr : string)
    (timeout : Duration) (o : Oracle) (fd : Z) :
  let tr := trace_of (CheckAddr p addr timeout) o in
  created tr = Some fd ->
  result_of (CheckAddr p addr timeout) o <> None
  /\ (exists e, last tr = Some e /\ closes fd e = true)
  /\ count (closes fd) tr = 1%nat
  /\ (forall fd' addr' o' n,
        count is_close (fst (observe (connect p fd' addr') o' n)) = 0%nat).
Proof.
  intros tr. subst tr.
  unfold created, count, CheckAddr, createSocket, connect, waitConnectResult,
    waitPipeTimeout, pollerFD, defer.
  by_cases o; intros Hc; try discriminate Hc; injection Hc as ->;
    (split; [congruence |];
     split; [eexists; split; [reflexivity | simpl; apply Z.eqb_refl] |];
     split; [rewrite ?Z.eqb_refl; reflexivity | intros; reflexivity]).
Qed.

Lemma CheckAddr_closes_descriptor_witness :
  created (trace_of (CheckAddr linux "127.0.0.1:80" time_Second)
             (connect_answers (Some (Errno 115)))) = Some 3
  /\ count (closes 3)
       (trace_of (CheckAddr linux "127.0.0.1:80" time_Second)
          (connect_answers (Some (Errno 115)))) = 1%nat.
Proof.
  split; [reflexivity |].
  apply (CheckAddr_closes_descriptor linux "127.0.0.1:80" time_Second
           (connect_answers (Some (Errno 115))) 3).
  reflexivity.
Defined.

(** ** [waitConnectResult] *)

(** C5.  In every run of [waitConnectResult] the delivery channel is entered
    in the registry before the descriptor is submitted to the poller, and no
    deregistration comes in between; on the shared state, the entry of the
    descriptor is present at the moment [registerEvents] is called. *)
Theorem registry_entry_precedes_poller_registration (fd : Z)
    (timeout : Duration) :
  (forall (o : Oracle) (n : nat),
      let tr := fst (observe (waitConnectResult fd timeout) o n) in
      exists pipe,
        head (omap acquired tr) = Some pipe
        /\ count (submits_to_poller fd) tr = 1%nat
        /\ count (registers fd pipe) (before (submits_to_poller fd) tr) = 1%nat
        /\ count is_deregister (before (submits_to_poller fd) tr) = 0%nat)
  /\ (forall (answers : list Answer) (w : World),
        exists w',
          world_at (@is_registerEvents fd) (waitConnectResult fd timeout)
            answers w = Some w'
          /\ resultPipes (checker w') !! fd = Some (next_acquired w)).
Proof.
  split.
  - intros o n.
    unfold count, waitConnectResult, waitPipeTimeout, pollerFD, defer.
    simpl. generalize (o _ n getPipe). intros pipe. exists pipe.
    ask o; rewrite ?Z.eqb_refl, ?Nat.eqb_refl; simpl; auto.
  - intros answers w.
    unfold waitConnectResult, waitPipeTimeout, pollerFD, defer, next_acquired.
    simpl. open_store.
    destruct (pipePool (checker w)) as [| p rest]; simpl;
      rewrite Z.eqb_refl; eexists; (split; [reflexivity |]); simpl;
      apply lookup_insert_eq.
Qed.

(** Deregistering a descriptor whose entry has been popped changes nothing. *)
Lemma deregister_after_pop (fd : Z) (w : World) :
  resultPipes (checker w) !! fd = None ->
  op_step (deregisterResultPipe fd) None w = Done tt w.
Proof.
  intros Hnone. simpl. f_equal. destruct w as [[] ? ? ? ? ? ?]; simpl in *.
  unfold registry_deregister, set_checker, set_resultPipes; simpl.
  by rewrite delete_id.
Qed.

(** C10.  Every run of [waitConnectResult] returns, and whichever way it
    leaves (result delivered, local timeout, registration with the poller
    failed) it ends by deregistering the descriptor and then releasing the
    channel it acquired, each exactly once.  On the shared state, it returns
    with no registry entry for the descriptor and with the acquired channel
    back on top of the pool. *)
Theorem waitConnectResult_cleanup (fd : Z) (timeout : Duration) :
  (forall (o : Oracle) (n : nat),
      let tr := fst (observe (waitConnectResult fd timeout) o n) in
      snd (observe (waitConnectResult fd timeout) o n) <> None
      /\ exists pipe,
          head (omap acquired tr) = Some pipe
          /\ count is_deregister tr = 1%nat
          /\ count is_release tr = 1%nat
          /\ ends_with_cleanup fd pipe tr = true)
  /\ (forall (answers : list Answer) (w : World) (r : Err) (w' : World),
        exec (waitConnectResult fd timeout) answers w = Done r w' ->
        resultPipes (checker w') !! fd = None
        /\ pipePool (checker w')
           = next_acquired w :: tail (pipePool (checker w))).
Proof.
  split.
  - intros o n.
    unfold count, ends_with_cleanup, waitConnectResult, waitPipeTimeout,
      pollerFD, defer.
    simpl. generalize (o _ n getPipe). intros pipe.
    ask o; simpl; (split; [congruence |]); exists pipe;
      rewrite ?Z.eqb_refl, ?Nat.eqb_refl; simpl; auto.
  - intros answers w r w'.
    unfold exec, waitConnectResult, waitPipeTimeout, pollerFD, defer,
      next_acquired.
    simpl. open_store.
    destruct (poolDrains w) eqn:Hdrains;
      destruct (pipePool (checker w)) as [| p rest] eqn:Hpool;
      destruct answers as [| [] answers]; simpl; try discriminate;
      (destruct err; simpl; [returned Hdrains Hpool |]);
      destruct answers as [| [] ?]; simpl; try discriminate;
      destruct fromPipe; simpl; rewrite ?lookup_insert_eq; simpl;
      try returned Hdrains Hpool;
      repeat match goal with
             | |- context [match ?m !! ?k with _ => _ end] =>
                 destruct (m !! k) as [[] |]; simpl; try discriminate
             end;
      returned Hdrains Hpool.
Qed.

(** ** Execution: general facts *)

Lemma run_bind {A B : Type} (p : Prog A) (f : A -> Prog B)
    (answers : list Answer) (w : World) :
  run (bind p f) answers w =
  match run p answers w with
  | Done (a, rest) w' => run (f a) rest w'
  | Blocked => Blocked
  | Panic => Panic
  | Refused => Refused
  | Spinning => Spinning
  end.
Proof.
  revert answers w. induction p as [a | X op k IH |]; intros answers w; simpl.
  - reflexivity.
  - destruct (op_step op _ w); try reflexivity. apply IH.
  - reflexivity.
Qed.

Lemma int32_small (z : Z) : - 2 ^ 31 <= z < 2 ^ 31 -> int32 z = z.
Proof. intros Hz. unfold int32. rewrite Z.mod_small; lia. Qed.

Lemma world_eta (w : World) :
  set_checker (set_pollerLock (pollerLock (checker w))) w = w.
Proof. destruct w as [[] ? ? ? ? ? ?]. reflexivity. Qed.

(** ** A second [CheckingLoop] *)

(** ** Handling a batch of readiness events *)

Lemma pop_missing (fd : Z) (w : World) :
  resultPipes (checker w) !! fd = None ->
  set_checker (set_resultPipes (delete fd)) w = w.
Proof.
  intros Hnone. destruct w as [[] ? ? ? ? ? ?]; simpl in *.
  unfold set_checker, set_resultPipes; simpl. by rewrite delete_id.
Qed.

Lemma insert_as_alter {A : Type} (f : A -> A) (m : gmap nat A) (i : nat)
    (x : A) :
  m !! i = Some x -> <[i := f x]> m = alter f i m.
Proof.
  intros Hx. apply map_eq. intros j. destruct (decide (i = j)) as [<- | Hne].
  - by rewrite lookup_insert_eq, lookup_alter_eq, Hx.
  - by rewrite lookup_insert_ne, lookup_alter_ne.
Qed.

Lemma handle_event_dropped (ev : event) (rest : list event)
    (answers : list Answer) (w : World) :
  resultPipes (checker w) !! Fd ev = None ->
  run (handlePollerEvents (ev :: rest)) answers w
  = run (handlePollerEvents rest) answers w.
Proof.
  intros Hnone. simpl. rewrite Hnone. simpl. by rewrite pop_missing.
Qed.

Lemma handle_event_delivered (ev : event) (rest : list event)
    (answers : list Answer) (w : World) (pipe : chan) (buf : list Err) :
  resultPipes (checker w) !! Fd ev = Some pipe ->
  pipes w !! pipe = Some buf ->
  (length buf < pipeCap)%nat ->
  run (handlePollerEvents (ev :: rest)) answers w
  = run (handlePollerEvents rest) answers (spec_deliver w ev).
Proof.
  intros Hentry Hbuf Hroom. simpl. rewrite Hentry. simpl. rewrite Hbuf.
  apply Nat.ltb_lt in Hroom. rewrite Hroom.
  unfold spec_deliver. rewrite Hentry. unfold set_pipes. simpl.
  rewrite <- (insert_as_alter (fun b => b ++ [EvErr ev]) _ _ _ Hbuf).
  reflexivity.
Qed.

Lemma spec_deliver_dropped (w : World) (ev : event) :
  resultPipes (checker w) !! Fd ev = None -> spec_deliver w ev = w.
Proof. intros Hnone. unfold spec_deliver. by rewrite Hnone. Qed.

Lemma spec_deliver_ready (w : World) (ev : event) :
  registry_ready w -> registry_ready (spec_deliver w ev).
Proof.
  intros Hready. unfold spec_deliver.
  destruct (resultPipes (checker w) !! Fd ev) as [pipe |] eqn:Hentry;
    [| exact Hready].
  intros fd p. simpl. intros Hp.
  apply lookup_delete_Some in Hp as [Hne Hp].
  destruct (Hready _ _ Hp) as [Hempty Hinj]. split.
  - rewrite lookup_alter_ne; [exact Hempty |].
    intros ->. apply Hne. apply Hinj. exact Hentry.
  - intros fd' Hp'. apply lookup_delete_Some in Hp' as [_ Hp'].
    apply Hinj. exact Hp'.
Qed.

Lemma spec_deliver_control (w : World) (ev : event) :
  same_control w (spec_deliver w ev).
Proof.
  unfold spec_deliver, same_control.
  destruct (resultPipes (checker w) !! Fd ev); simpl; tauto.
Qed.

Lemma same_control_trans (w1 w2 w3 : World) :
  same_control w1 w2 -> same_control w2 w3 -> same_control w1 w3.
Proof. unfold same_control. intuition congruence. Qed.

Lemma handlePollerEvents_run (evs : list event) (answers : list Answer)
    (w : World) :
  registry_ready w ->
  run (handlePollerEvents evs) answers w
  = Done (tt, answers) (foldl spec_deliver w evs).
Proof.
  revert w. induction evs as [| ev rest IH]; intros w Hready.
  - reflexivity.
  - destruct (resultPipes (checker w) !! Fd ev) as [pipe |] eqn:Hentry.
    + destruct (Hready _ _ Hentry) as [Hempty _].
      rewrite (handle_event_delivered _ _ _ _ _ _ Hentry Hempty);
        [| simpl; unfold pipeCap; lia].
      rewrite IH by (apply spec_deliver_ready; exact Hready). reflexivity.
    + rewrite handle_event_dropped by exact Hentry.
      rewrite IH by exact Hready. simpl.
      by rewrite (spec_deliver_dropped _ _ Hentry).
Qed.

Lemma foldl_deliver_ready (evs : list event) (w : World) :
  registry_ready w ->
  registry_ready (foldl spec_deliver w evs)
  /\ same_control w (foldl spec_deliver w evs).
Proof.
  revert w. induction evs as [| ev rest IH]; intros w Hready; simpl.
  - split; [exact Hready | unfold same_control; tauto].
  - destruct (IH _ (spec_deliver_ready _ ev Hready)) as [Hr Hc].
    split; [exact Hr |].
    eapply same_control_trans; [apply spec_deliver_control | exact Hc].
Qed.

(** C6.  For a batch of readiness events: an event whose descriptor has an
    entry in the registry has the entry removed and its error (or nil) put on
    the entry's channel; an event whose descriptor has no entry changes
    nothing, and the loop goes on with the remaining events; with the
    registered channels empty and distinct, the whole batch is handled
    without blocking, event by event as the specification says. *)
Theorem handlePollerEvents_delivers_or_drops :
  (forall ev rest answers w,
      resultPipes (checker w) !! Fd ev = None ->
      run (handlePollerEvents (ev :: rest)) answers w
      = run (handlePollerEvents rest) answers w)
  /\ (forall ev rest answers w pipe buf,
        resultPipes (checker w) !! Fd ev = Some pipe ->
        pipes w !! pipe = Some buf ->
        (length buf < pipeCap)%nat ->
        run (handlePollerEvents (ev :: rest)) answers w
        = run (handlePollerEvents rest) answers (spec_deliver w ev)
        /\ resultPipes (checker (spec_deliver w ev)) !! Fd ev = None
        /\ pipes (spec_deliver w ev) !! pipe = Some (buf ++ [EvErr ev]))
  /\ (forall evs answers w,
        registry_ready w ->
        run (handlePollerEvents evs) answers w
        = Done (tt, answers) (foldl spec_deliver w evs)).
Proof.
  split; [exact handle_event_dropped |].
  split; [| exact handlePollerEvents_run].
  intros ev rest answers w pipe buf Hentry Hbuf Hroom.
  split; [exact (handle_event_delivered _ _ _ _ _ _ Hentry Hbuf Hroom) |].
  unfold spec_deliver. rewrite Hentry. simpl.
  split; [apply lookup_delete_eq |]. by rewrite lookup_alter_eq, Hbuf.
Qed.

(** ** The end of [CheckingLoop] *)

Lemma pollingLoop_ends (s : loop_end) (pfd : Z) (batches : list (list event)) :
  forall (fuel : nat) (w : World) (rest : list Answer),
    registry_ready w ->
    (length batches < fuel)%nat ->
    exists w',
      run (pollingLoop fuel pfd) (polls batches ++ end_answers s ++ rest) w
      = Done (end_result s, rest) w'
      /\ same_control w w' /\ registry_ready w'.
Proof.
  induction batches as [| evs batches IH]; intros fuel w rest Hready Hfuel;
    (destruct fuel as [| fuel]; [simpl in Hfuel; lia |]).
  - exists w. split; [| split; [unfold same_control; tauto | exact Hready]].
    destruct s; reflexivity.
  - simpl in Hfuel. simpl. rewrite run_bind, handlePollerEvents_run by done.
    destruct (foldl_deliver_ready evs _ Hready) as [Hready' Hsame].
    destruct (IH fuel _ rest Hready') as (w' & Hrun & Hsame' & Hready'');
      [lia |].
    exists w'. split; [exact Hrun |]. split; [| exact Hready''].
    eapply same_control_trans; eassumption.
Qed.

Lemma run_Ret {A : Type} (a : A) (answers : list Answer) (w : World) :
  run (Ret a) answers w = Done (a, answers) w.
Proof. reflexivity. Qed.

Lemma run_createPoller (pfd : Z) (rest : list Answer) (w : World) :
  pollerFd (checker w) <= 0 ->
  pollerLock (checker w) = false ->
  fresh_fd pfd w = true ->
  run Checker_createPoller (AnsFd pfd None :: rest) w
  = Done ((pfd, None), rest)
      (set_checker (set_pollerLock false)
         (set_checker (set_pollerFd (int32 pfd))
            (set_openFds (union {[pfd]})
               (set_checker (set_pollerLock true) w)))).
Proof.
  intros Hidle Hfree Hfresh.
  unfold Checker_createPoller, pollerFD, setPollerFD, defer. simpl.
  rewrite Hfree. simpl.
  destruct (0 <? pollerFd (checker w)) eqn:Hcmp; [lia |]. simpl.
  change (fresh_fd pfd (set_checker (set_pollerLock true) w))
    with (fresh_fd pfd w).
  rewrite Hfresh. reflexivity.
Qed.

Lemma run_closePoller (e : Err) (rest : list Answer) (w : World) :
  0 < pollerFd (checker w) ->
  pollerLock (checker w) = false ->
  run closePoller (AnsErr e :: rest) w
  = Done (e, rest)
      (set_checker (set_pollerLock false)
         (set_checker (set_pollerFd (int32 (-1)))
            (set_openFds (fun s => s ∖ {[pollerFd (checker w)]})
               (set_checker (set_pollerLock true) w)))).
Proof.
  intros Hlive Hfree.
  unfold closePoller, pollerFD, setPollerFD, defer. simpl.
  rewrite Hfree. simpl.
  destruct (0 <? pollerFd (checker w)) eqn:Hcmp; [| lia]. reflexivity.
Qed.

Lemma relock (b : bool) (w : World) :
  set_checker (set_pollerLock b) (set_checker (set_pollerLock true) w)
  = set_checker (set_pollerLock b) w.
Proof. destruct w as [[] ? ? ? ? ? ?]. reflexivity. Qed.

Lemma run_closePoller_idle (answers : list Answer) (w : World) :
  pollerFd (checker w) <= 0 ->
  pollerLock (checker w) = false ->
  run closePoller answers w
  = Done (None, answers) (set_checker (set_pollerFd (-1)) w).
Proof.
  intros Hidle Hfree.
  unfold closePoller, pollerFD, setPollerFD, defer. simpl.
  rewrite Hfree. simpl.
  destruct (0 <? pollerFd (checker w)) eqn:Hcmp; [lia |]. simpl.
  f_equal. destruct w as [[] ? ? ? ? ? ?]. simpl in *. subst.
  reflexivity.
Qed.

Lemma run_setReady (answers : list Answer) (w : World) :
  WaitReady_blocks w ->
  run setReady answers w
  = Done (tt, answers)
      (set_closedSignals (union {[isReady (checker w)]}) w).
Proof.
  intros Hopen. unfold setReady. simpl.
  by rewrite bool_decide_eq_false_2.
Qed.

Lemma run_resetReady (answers : list Answer) (w : World) :
  run resetReady answers w
  = Done (tt, answers)
      (set_checker
         (set_isReady (fresh (closedSignals w ∪ {[isReady (checker w)]}))) w).
Proof. reflexivity. Qed.

Lemma run_setReady_again (answers : list Answer) (w : World) :
  ~ WaitReady_blocks w -> run setReady answers w = Panic.
Proof.
  intros Hclosed. unfold setReady. simpl.
  rewrite bool_decide_eq_true_2; [reflexivity |].
  unfold WaitReady_blocks, WaitReady in Hclosed.
  destruct (decide (isReady (checker w) ∈ closedSignals w)); tauto.
Qed.

(** C4.  A second call of [CheckingLoop] on a Checker whose loop runs.
    When the handle recorded is positive (and the lock free) the call
    returns [ErrCheckerAlreadyStarted], wrapped with "error creating
    poller", whatever the environment would answer, and leaves the whole
    state as it found it.  When the live handle recorded is 0, the guard
    [pollerFD() > 0] does not see it: the call creates a second poller,
    records it in place of the first, which stays open, and then panics on
    closing the readiness channel that the first loop has closed. *)
Theorem CheckingLoop_already_started (fuel : nat) (w : World) :
  pollerLock (checker w) = false ->
  (0 < pollerFd (checker w) ->
   forall answers,
     exec (CheckingLoop fuel) answers w
     = Done (errors_Wrap (Some ErrCheckerAlreadyStarted)
               "error creating poller") w)
  /\ (pollerFd (checker w) = 0 ->
      0 ∈ openFds w ->
      ~ WaitReady_blocks w ->
      forall pfd rest,
        fresh_fd pfd w = true ->
        pfd < 2 ^ 31 ->
        (exists w1,
            run Checker_createPoller (AnsFd pfd None :: rest) w
            = Done ((pfd, None), rest) w1
            /\ pollerFd (checker w1) = pfd
            /\ 0 ∈ openFds w1
            /\ pfd ∈ openFds w1)
        /\ exec (CheckingLoop fuel) (AnsFd pfd None :: rest) w = Panic).
Proof.
  intros Hfree. split.
  - intros Hlive answers.
    unfold exec, CheckingLoop, Checker_createPoller, pollerFD, defer. simpl.
    rewrite Hfree. simpl.
    destruct (0 <? pollerFd (checker w)) eqn:Hcmp; [| lia]. simpl.
    f_equal. rewrite <- Hfree.
    destruct w as [[] ? ? ? ? ? ?]. reflexivity.
  - intros Hzero Hopen Hready pfd rest Hfresh Hpfd.
    assert (Hpos : 0 <= pfd).
    { unfold fresh_fd in Hfresh. apply andb_prop in Hfresh as [H _]. lia. }
    assert (Hidle : pollerFd (checker w) <= 0) by lia.
    split.
    + eexists. split; [exact (run_createPoller pfd rest w Hidle Hfree Hfresh) |].
      project_state. rewrite int32_small by lia.
      split; [reflexivity |]. split; set_solver.
    + unfold exec, CheckingLoop. rewrite run_bind.
      rewrite (run_createPoller pfd rest w Hidle Hfree Hfresh).
      cbv iota beta. unfold defer. rewrite !run_bind.
      rewrite run_setReady_again; [reflexivity |].
      unfold WaitReady_blocks, WaitReady in *. project_state. exact Hready.
Qed.

(** C7.  Started on an idle Checker, with a poller descriptor [pfd]
    obtained, the loop polls any number of batches and then ends: on
    cancellation [CheckingLoop] returns nil, on a failure of the poller's
    wait it returns that error wrapped.  In both cases the recorded handle
    is -1 again and the readiness channel is a new, open one, so that
    receiving from [WaitReady] blocks.  The poller descriptor has been
    closed when it is positive; when it is 0, [closePoller] tests
    [pollerFD() > 0], makes no call of [unix.Close], and the loop returns
    with the poller still open. *)
Theorem CheckingLoop_stops (s : loop_end) (pfd : Z) (closeErr : Err)
    (batches : list (list event)) (fuel : nat) (w : World) :
  pollerFd (checker w) <= 0 ->
  pollerLock (checker w) = false ->
  WaitReady_blocks w ->
  fresh_fd pfd w = true ->
  pfd < 2 ^ 31 ->
  registry_ready w ->
  (length batches < fuel)%nat ->
  exists w',
    exec (CheckingLoop fuel)
      (AnsFd pfd None :: polls batches ++ end_answers s ++ [AnsErr closeErr]) w
    = Done (end_result s) w'
    /\ end_result Cancelled = None
    /\ (forall evs e,
          end_result (WaitFailed evs e)
          = errors_Wrap (Some e) "error during polling loop")
    /\ pollerFd (checker w') = -1
    /\ (0 < pfd -> pfd ∉ openFds w')
    /\ (pfd = 0 -> 0 ∈ openFds w')
    /\ WaitReady_blocks w'
    /\ pollerLock (checker w') = false.
Proof.
  intros Hidle Hfree Hopen Hfresh Hpfd Hready Hfuel.
  assert (Hpos : 0 <= pfd).
  { unfold fresh_fd in Hfresh. apply andb_prop in Hfresh as [H _]. lia. }
  unfold exec, CheckingLoop. rewrite run_bind.
  rewrite run_createPoller by assumption.
  unfold defer. rewrite !run_bind.
  rewrite run_setReady by exact Hopen. cbv iota. rewrite run_bind.
  match goal with
  | |- context [run (pollingLoop fuel pfd) _ ?w1] =>
      destruct (pollingLoop_ends s pfd batches fuel w1 [AnsErr closeErr])
        as (w3 & Hloop & Hsame & Hready3); [exact Hready | exact Hfuel |]
  end.
  rewrite Hloop. cbv iota.
  rewrite run_bind, run_resetReady. cbv iota. rewrite run_Ret. cbv iota.
  unfold same_control in Hsame. simpl in Hsame.
  destruct Hsame as (Hfd & Hlock & Hsig & _ & Hclosed & Hfds).
  rewrite int32_small in Hfd by lia.
  assert (Hfresh3 : isReady
                      (checker
                         (set_checker
                            (set_isReady
                               (fresh (closedSignals w3
                                       ∪ {[isReady (checker w3)]}))) w3))
                    ∉ closedSignals w3).
  { simpl. intros Hin.
    apply (is_fresh (closedSignals w3 ∪ {[isReady (checker w3)]})).
    apply elem_of_union_l. exact Hin. }
  destruct (decide (pfd = 0)) as [-> | Hne].
  - rewrite run_bind, run_closePoller_idle; simpl; [| lia | exact Hlock].
    eexists. split; [reflexivity |]. simpl.
    split; [reflexivity |]. split; [reflexivity |].
    split; [reflexivity |].
    split; [lia |].
    split; [intros _; rewrite Hfds; apply elem_of_union_l;
            by apply elem_of_singleton |].
    split; [| exact Hlock].
    unfold WaitReady_blocks, WaitReady. exact Hfresh3.
  - rewrite run_bind, run_closePoller; simpl; [| lia | exact Hlock].
    eexists. split; [reflexivity |]. simpl.
    split; [reflexivity |]. split; [reflexivity |].
    split; [reflexivity |].
    split; [intros _; rewrite Hfd; apply not_elem_of_difference; right;
            by apply elem_of_singleton |].
    split; [intros ->; lia |].
    split; [| reflexivity].
    unfold WaitReady_blocks, WaitReady. exact Hfresh3.
Qed.

(** ** Pool correctness *)

(** C8.  Two schedules of a polling loop and two checks, under either
    reading of the pool's release.  In both, the first check is pending on
    descriptor 5 and the poller reports it refused; the loop pops the entry;
    the check times out, deregisters and releases its channel; only then
    does the loop send.  If the send comes before the second check acquires,
    the pool holds a channel with an unconsumed value and hands it out.  If
    it comes after, the channel is empty when acquired and the value arrives
    on it later.  Either way the second check, on descriptor 6, returns the
    refusal, although the poller never reported anything for descriptor
    6. *)
Theorem pooled_channel_keeps_late_value (drains : bool) :
  (exists c,
      run_sched (pop_then_timeout ++ late_send) (two_checks linux drains)
      = Some c
      /\ returned c = [None; Some (Some ErrTimeout); None]
      /\ ~ pool_clean (world c)
      /\ exists w',
          op_step getPipe None (world c) = Done 0%nat w'
          /\ pipes w' !! 0%nat = Some [Some (Errno ECONNREFUSED)])
  /\ (exists c,
        run_sched (pop_then_timeout ++ late_send ++ second_waits)
          (two_checks linux drains)
        = Some c
        /\ returned c
           = [None; Some (Some ErrTimeout);
              Some (Some (Errno ECONNREFUSED))])
  /\ (exists c,
        run_sched (pop_then_timeout ++ early_acquire)
          (two_checks linux drains)
        = Some c
        /\ resultPipes (checker (world c)) !! 6 = Some 0%nat
        /\ pipes (world c) !! 0%nat = Some [])
  /\ (exists c,
        run_sched (pop_then_timeout ++ early_acquire ++ send_after_acquire)
          (two_checks linux drains)
        = Some c
        /\ returned c
           = [None; Some (Some ErrTimeout);
              Some (Some (Errno ECONNREFUSED))])
  /\ reported_fds (pop_then_timeout ++ late_send ++ second_waits) = [5]
  /\ reported_fds (pop_then_timeout ++ early_acquire ++ send_after_acquire)
     = [5].
Proof.
  split; [| split; [| split; [| split; [| split; reflexivity]]]].
  - destruct drains;
      (eexists; split; [vm_compute; reflexivity |];
       split; [reflexivity |]; split;
       [ intros Hclean;
         specialize (Hclean 0%nat (list_elem_of_here 0%nat []));
         vm_compute in Hclean; discriminate Hclean
       | eexists; split; reflexivity ]).
  - destruct drains;
      (eexists; split; [vm_compute; reflexivity | reflexivity]).
  - destruct drains;
      (eexists; split; [vm_compute; reflexivity | split; reflexivity]).
  - destruct drains;
      (eexists; split; [vm_compute; reflexivity | reflexivity]).
Qed.

(** ** The deadline of [CheckAddr] *)







Lemma run_close_after {A : Type} (body : Prog A) (fd : Z) (closeErr : Err)
    (answers : list Answer) (w w' : World) (r : A) :
  run body answers w = Done (r, [AnsErr closeErr]) w' ->
  exec (defer (call (unix_Close fd)) body) answers w
  = Done r (set_openFds (fun s => s ∖ {[fd]}) w').
Proof.
  intros Hbody. unfold exec, defer. rewrite run_bind, Hbody. reflexivity.
Qed.


(** ** The theorems at sample inputs *)

Lemma NewChecker_registry_ready (drains : bool) :
  registry_ready (NewChecker drains).
Proof.
  intros fd pipe Hentry. simpl in Hentry. by rewrite lookup_empty in Hentry.
Qed.


Lemma one_waiting_registry_ready : registry_ready one_waiting.
Proof.
  intros fd pipe Hentry. simpl in Hentry.
  apply lookup_insert_Some in Hentry as [[<- <-] | [_ Hentry]];
    [| by rewrite lookup_empty in Hentry].
  split; [reflexivity |].
  intros fd' Hentry'. simpl in Hentry'.
  apply lookup_insert_Some in Hentry' as [[<- _] | [_ Hentry']];
    [reflexivity | by rewrite lookup_empty in Hentry'].
Qed.

Lemma CheckingLoop_already_started_witness :
  exec (CheckingLoop 1) [AnsFd 3 None; AnsCancelled true]
    loop_on_descriptor_zero = Panic.
Proof.
  apply (CheckingLoop_already_started 1 loop_on_descriptor_zero).
  - reflexivity.
  - reflexivity.
  - apply elem_of_union_l. by apply elem_of_singleton.
  - intros Hblocks. apply Hblocks.
    apply elem_of_union_l. by apply elem_of_singleton.
  - reflexivity.
  - lia.
Defined.

Lemma handlePollerEvents_delivers_or_drops_witness :
  registry_ready one_waiting
  /\ run (handlePollerEvents
            [{| Fd := 5; EvErr := Some (Errno ECONNREFUSED) |};
             {| Fd := 7; EvErr := None |};
             {| Fd := 5; EvErr := None |}]) [] one_waiting
     = Done (tt, [])
         (set_pipes (insert 0%nat [Some (Errno ECONNREFUSED)])
            (set_checker (set_resultPipes (fun _ => ∅)) one_waiting)).
Proof.
  split; [exact one_waiting_registry_ready |].
  destruct handlePollerEvents_delivers_or_drops as (_ & _ & Hbatch).
  rewrite Hbatch by exact one_waiting_registry_ready.
  vm_compute. reflexivity.
Defined.

Lemma CheckingLoop_stops_witness :
  exists w',
    exec (CheckingLoop 3)
      [AnsFd 0 None;
       AnsCancelled false;
       AnsEvents [{| Fd := 5; EvErr := Some (Errno ECONNREFUSED) |}] None;
       AnsCancelled true; AnsErr None] (NewChecker true)
    = Done None w'
    /\ pollerFd (checker w') = -1
    /\ (0 ∈ openFds w')
    /\ WaitReady_blocks w'.
Proof.
  destruct (CheckingLoop_stops Cancelled 0 None
              [[{| Fd := 5; EvErr := Some (Errno ECONNREFUSED) |}]] 3
              (NewChecker true))
    as (w' & Hrun & _ & _ & Hfd & _ & Hopen & Hready & _).
  - simpl. lia.
  - reflexivity.
  - unfold WaitReady_blocks. simpl. apply not_elem_of_empty.
  - reflexivity.
  - lia.
  - apply NewChecker_registry_ready.
  - simpl. lia.
  - exists w'. split; [exact Hrun |]. split; [exact Hfd |].
    split; [exact (Hopen eq_refl) | exact Hready].
Defined.


Lemma waitConnectResult_cleanup_witness :
  exists w',
    exec (waitConnectResult 6 100) [AnsErr None; AnsCase false] one_waiting
    = Done (Some ErrTimeout) w'
    /\ resultPipes (checker w') !! 6 = None
    /\ pipePool (checker w') = [1%nat].
Proof.
  assert (exists w',
             exec (waitConnectResult 6 100) [AnsErr None; AnsCase false]
               one_waiting
             = Done (Some ErrTimeout) w') as [w' Hrun]
    by (eexists; vm_compute; reflexivity).
  exists w'. split; [exact Hrun |].
  destruct (waitConnectResult_cleanup 6 100) as [_ Hstate].
  exact (Hstate _ _ _ _ Hrun).
Defined.

(** * Further properties of [socket.go] and [checker.go] *)

(** ** Traces compose *)

Lemma observe_bind {A B : Type} (p : Prog A) (f : A -> Prog B) (o : Oracle)
    (n : nat) :
  observe (bind p f) o n =
  match observe p o n with
  | (tr, Some a) =>
      let '(tr', r) := observe (f a) o (n + length tr) in (tr ++ tr', r)
  | (tr, None) => (tr, None)
  end.
Proof.
  revert n. induction p as [a | X op k IH |]; intros n; simpl.
  - rewrite Nat.add_0_r. destruct (observe (f a) o n). reflexivity.
  - rewrite IH. destruct (observe (k (o X n op)) o (S n)) as [tr [a |]].
    + simpl. rewrite <- Nat.add_succ_comm. simpl.
      destruct (observe (f a) o _). reflexivity.
    + reflexivity.
  - reflexivity.
Qed.

(** ** [setSockOpts] and [createSocket] *)

(** X1.  [setSockOpts] first sets the descriptor non-blocking; if that
    fails it returns the error and leaves [TCP_QUICKACK] alone; otherwise it
    clears [TCP_QUICKACK] once and returns the result of that call.  It
    returns nil exactly when both calls succeeded. *)
Theorem setSockOpts_stops_at_first_error (fd : Z) (o : Oracle) (n : nat) :
  let tr := fst (observe (setSockOpts fd) o n) in
  let r := snd (observe (setSockOpts fd) o n) in
  let nonblock := o _ n (unix_SetNonblock fd true) in
  let quickack :=
    o _ (S n) (unix_SetsockoptInt fd IPPROTO_TCP TCP_QUICKACK 0) in
  option_map (sets_nonblocking fd) (head tr) = Some true
  /\ (nonblock <> None ->
      r = Some nonblock /\ count (sets_quickack fd) tr = 0%nat)
  /\ (nonblock = None ->
      r = Some quickack /\ count (sets_quickack fd) tr = 1%nat
      /\ option_map (sets_quickack fd) (last tr) = Some true)
  /\ (r = Some None <-> nonblock = None /\ quickack = None).
Proof.
  unfold setSockOpts, count. simpl.
  destruct (o _ n (unix_SetNonblock fd true)) as [e |] eqn:Hnb; simpl;
    rewrite ?Z.eqb_refl; simpl.
  - split; [reflexivity |]. split; [auto |]. split; [discriminate |].
    split; [discriminate | intros [Hno _]; discriminate Hno].
  - split; [reflexivity |]. split; [congruence |].
    split; [auto |]. split; [intros [= ->]; auto | intros [_ ->]; reflexivity].
Qed.

Lemma setSockOpts_stops_at_first_error_witness :
  snd (observe (setSockOpts 3) quiet 0) = Some None.
Proof.
  destruct (setSockOpts_stops_at_first_error 3 quiet 0) as (_ & _ & _ & Hnil).
  apply Hnil. split; reflexivity.
Defined.

(** ** The ways out of [CheckAddr] *)

(** X2.  An address that does not parse: [CheckAddr] returns the parser's
    error as it is, after reading the clock and calling the parser only; no
    socket call is made, nothing of the pool, the registry or the poller is
    touched, and on the shared state only the clock has moved. *)
Theorem CheckAddr_malformed_address (p : Platform) (addr : string)
    (timeout : Duration) :
  (forall (o : Oracle) (sa : Sockaddr) (e : error),
      let tr := trace_of (CheckAddr p addr timeout) o in
      head (omap answered_parse tr) = Some (sa, Some e) ->
      result_of (CheckAddr p addr timeout) o = Some (Some e)
      /\ length tr = 2%nat
      /\ count is_socket_call tr = 0%nat
      /\ count is_asynchronous tr = 0%nat)
  /\ (forall (w : World) (t : Time) (sa : Sockaddr) (e : error)
             (rest : list Answer),
        clock w <= t ->
        exec (CheckAddr p addr timeout)
          (AnsTime t :: AnsAddr sa (Some e) :: rest) w
        = Done (Some e) (set_clock t w)).
Proof.
  split.
  - intros o sa e. open_CheckAddr. ask_keeping o; simpl; intros Hparse;
      try discriminate Hparse; injection Hparse as _ <-; auto.
  - intros w t sa e rest Hclock. unfold exec, CheckAddr. simpl.
    destruct (clock w <=? t) eqn:Hle; [reflexivity | lia].
Qed.

Lemma CheckAddr_malformed_address_witness :
  exec (CheckAddr linux "nowhere" time_Second)
    [AnsTime 7; AnsAddr (SockaddrUnix "") (Some (Errno 22))]
    (NewChecker true)
  = Done (Some (Errno 22)) (set_clock 7 (NewChecker true)).
Proof.
  apply (proj2 (CheckAddr_malformed_address linux "nowhere" time_Second)).
  simpl. lia.
Defined.

(** X3.  A failed [unix.Socket]: [CheckAddr] returns that error as it is.
    [unix.CloseOnExec] has been called on the descriptor the failed call
    returned, and nothing else: no connect, no close, nothing of the pool,
    the registry or the poller. *)
Theorem CheckAddr_socket_failure (p : Platform) (addr : string)
    (timeout : Duration) (o : Oracle) (fd : Z) (e : error) :
  let tr := trace_of (CheckAddr p addr timeout) o in
  head (omap answered_socket tr) = Some (fd, Some e) ->
  result_of (CheckAddr p addr timeout) o = Some (Some e)
  /\ count (marks_cloexec fd) tr = 1%nat
  /\ count is_connect tr = 0%nat
  /\ count is_close tr = 0%nat
  /\ count is_asynchronous tr = 0%nat.
Proof.
  open_CheckAddr. ask_keeping o; simpl; intros Hsock;
    try discriminate Hsock; injection Hsock as <- <-;
    rewrite ?Z.eqb_refl; auto.
Qed.

Lemma CheckAddr_socket_failure_witness :
  let o : Oracle :=
    fun X n op =>
      match op in Op T return T -> T with
      | unix_Socket _ _ _ => fun _ => (-1, Some (Errno 24))
      | _ => fun d => d
      end (quiet X n op) in
  result_of (CheckAddr linux "127.0.0.1:80" time_Second) o
  = Some (Some (Errno 24))
  /\ count (marks_cloexec (-1))
       (trace_of (CheckAddr linux "127.0.0.1:80" time_Second) o) = 1%nat.
Proof.
  intros o.
  destruct (CheckAddr_socket_failure linux "127.0.0.1:80" time_Second o (-1)
              (Errno 24) eq_refl) as (Hr & Hc & _).
  split; [exact Hr | exact Hc].
Defined.

(** X4.  A connect that completes at once.  If the connect call returns nil
    or EISCONN (or EINVAL on Solaris), [CheckAddr] returns nil; if it
    returns any other code that is not a pending one, [CheckAddr] returns
    that code wrapped in [ErrConnect].  In both cases nothing of the pool,
    the registry or the poller is touched and the clock is read only once:
    the descriptor is closed and the call is over. *)
Theorem CheckAddr_synchronous_outcomes (p : Platform) (addr : string)
    (timeout : Duration) (o : Oracle) (serr : Err) :
  let tr := trace_of (CheckAddr p addr timeout) o in
  distinct_codes p ->
  head (omap answered_connect tr) = Some serr ->
  ~ spec_pending p serr ->
  (spec_connected p serr ->
   result_of (CheckAddr p addr timeout) o = Some None)
  /\ (~ spec_connected p serr ->
      exists e, serr = Some e
                /\ result_of (CheckAddr p addr timeout) o
                   = Some (Some (ErrConnect e)))
  /\ count is_asynchronous tr = 0%nat
  /\ length (omap clock_reading tr) = 1%nat
  /\ option_map is_close (last tr) = Some true.
Proof.
  intros tr Hd. subst tr. open_CheckAddr.
  ask_keeping o; simpl; intros Hconn Hnp; try discriminate Hconn;
    injection Hconn as ->;
    try (apply connect_switch_pending in Hsw; contradiction);
    (split; [| split; [| auto]]).
  all: first
         [ intros Hc; apply (connect_switch_connected p serr Hd) in Hc;
           rewrite Hsw in Hc; first [discriminate Hc | reflexivity]
         | intros Hnc;
           destruct (connect_switch_failure p serr Hnp Hnc)
             as (e' & He & Hf);
           rewrite Hsw in Hf; first [discriminate Hf | injection Hf as ->];
           exists e'; split; first [exact He | reflexivity] ].
Qed.

Lemma CheckAddr_synchronous_outcomes_witness :
  result_of (CheckAddr linux "127.0.0.1:80" time_Second)
    (connect_answers (Some (Errno 111)))
  = Some (Some (ErrConnect (Errno 111))).
Proof.
  destruct (CheckAddr_synchronous_outcomes linux "127.0.0.1:80" time_Second
              (connect_answers (Some (Errno 111))) (Some (Errno 111))
              distinct_codes_linux eq_refl) as (_ & Hfail & _).
  - intros [H | [H | H]]; discriminate H.
  - destruct Hfail as (e & He & Hr).
    + intros [H | [H | [H _]]]; discriminate H.
    + injection He as <-. exact Hr.
Defined.

(** X5.  A pending connect.  If the connect call returns EALREADY,
    EINPROGRESS or EINTR, [CheckAddr] reads the clock a second time and
    registers with the poller once.  If that registration fails it returns
    the registration error without waiting; otherwise it waits once and
    returns what the wait gave: the value delivered on the channel as it is
    (nil meaning success, an error not wrapped in [ErrConnect]), or
    [ErrTimeout]. *)
Theorem CheckAddr_pending_result (p : Platform) (addr : string)
    (timeout : Duration) (o : Oracle) (serr : Err) :
  let tr := trace_of (CheckAddr p addr timeout) o in
  head (omap answered_connect tr) = Some serr ->
  spec_pending p serr ->
  length (omap clock_reading tr) = 2%nat
  /\ exists reg,
      omap answered_registerEvents tr = [reg]
      /\ match reg with
         | Some e =>
             result_of (CheckAddr p addr timeout) o = Some (Some e)
             /\ omap answered_select tr = []
         | None =>
             exists got,
               omap answered_select tr = [got]
               /\ result_of (CheckAddr p addr timeout) o
                  = Some (selected_result got)
         end.
Proof.
  intros tr. subst tr. open_CheckAddr.
  ask_keeping o; simpl; intros Hconn Hp; try discriminate Hconn;
    injection Hconn as ->;
    apply connect_switch_pending in Hp; rewrite Hp in Hsw;
    try discriminate Hsw;
    (split; [reflexivity |]); eexists; (split; [reflexivity |]); simpl;
    eauto.
Qed.

Lemma CheckAddr_pending_result_witness :
  result_of (CheckAddr linux "127.0.0.1:80" time_Second)
    (answers_with (Some (Errno 115)) None (FromPipe None))
  = Some None.
Proof.
  destruct (CheckAddr_pending_result linux "127.0.0.1:80" time_Second
              (answers_with (Some (Errno 115)) None (FromPipe None))
              (Some (Errno 115)) eq_refl)
    as (_ & reg & Hreg & Hres).
  - right. left. reflexivity.
  - injection Hreg as <-. destruct Hres as (got & Hgot & Hr).
    injection Hgot as <-. exact Hr.
Defined.

(** ** The poller handle *)

Lemma int32_range (z : Z) : - 2 ^ 31 <= int32 z < 2 ^ 31.
Proof.
  unfold int32.
  pose proof (Z.mod_pos_bound (z + 2 ^ 31) (2 ^ 32) ltac:(lia)). lia.
Qed.

(** X6.  The recorded handle is a 32-bit integer: what [setPollerFD] stores
    and [pollerFD] reads back is the descriptor truncated to 32 bits, which
    is the descriptor itself exactly when it lies between -2^31 and
    2^31 - 1; two descriptors that differ by 2^32 are recorded alike. *)
Theorem pollerFD_reads_back_int32 (fd : Z) (answers : list Answer)
    (w : World) :
  exec (bind (setPollerFD fd) (fun _ => pollerFD)) answers w
  = Done (int32 fd) (set_checker (set_pollerFd (int32 fd)) w)
  /\ (int32 fd = fd <-> - 2 ^ 31 <= fd < 2 ^ 31)
  /\ int32 (fd + 2 ^ 32) = int32 fd.
Proof.
  split; [reflexivity |]. split.
  - split; [intros <-; apply int32_range | apply int32_small].
  - unfold int32. f_equal.
    replace (fd + 2 ^ 32 + 2 ^ 31) with (fd + 2 ^ 31 + 1 * 2 ^ 32) by lia.
    apply Z.mod_add. lia.
Qed.

(** X7.  [closePoller] with no live handle recorded (a handle of 0 counts
    as none): it makes no system call, returns nil and records -1, leaving
    everything else as it was.  After a close of a live handle a second
    [closePoller] is of that kind: it changes nothing any more. *)
Theorem closePoller_without_live_handle (answers : list Answer) (w : World) :
  pollerLock (checker w) = false ->
  (pollerFd (checker w) <= 0 ->
   run closePoller answers w
   = Done (None, answers) (set_checker (set_pollerFd (-1)) w))
  /\ (0 < pollerFd (checker w) ->
      forall e,
      exists w',
        run closePoller (AnsErr e :: answers) w = Done (e, answers) w'
        /\ (pollerFd (checker w) ∉ openFds w')
        /\ run closePoller answers w' = Done (None, answers) w').
Proof.
  intros Hfree. split.
  - intros Hidle. apply run_closePoller_idle; assumption.
  - intros Hlive e. rewrite run_closePoller by assumption.
    eexists. split; [reflexivity |]. split.
    + simpl. apply not_elem_of_difference. right. by apply elem_of_singleton.
    + rewrite run_closePoller_idle.
      * destruct w as [[] ? ? ? ? ? ?]. reflexivity.
      * simpl. pose proof (int32_small (-1)). lia.
      * reflexivity.
Qed.

Lemma closePoller_without_live_handle_witness :
  run closePoller [] (NewChecker true) = Done (None, []) (NewChecker true).
Proof.
  apply (proj1 (closePoller_without_live_handle [] (NewChecker true)
                  eq_refl)).
  simpl. lia.
Defined.

Lemma world_ext (w1 w2 : World) :
  checker w1 = checker w2 -> pipes w1 = pipes w2 ->
  nextPipe w1 = nextPipe w2 -> closedSignals w1 = closedSignals w2 ->
  openFds w1 = openFds w2 -> clock w1 = clock w2 ->
  poolDrains w1 = poolDrains w2 -> w1 = w2.
Proof. destruct w1, w2. simpl. intros; subst; reflexivity. Qed.

Lemma checker_ext (c1 c2 : Checker) :
  pipePool c1 = pipePool c2 -> pollerLock c1 = pollerLock c2 ->
  resultPipes c1 = resultPipes c2 -> pollerFd c1 = pollerFd c2 ->
  isReady c1 = isReady c2 -> c1 = c2.
Proof. destruct c1, c2. simpl. intros; subst; reflexivity. Qed.

Lemma reopen_close (fd : Z) (fds : gset Z) :
  fd ∉ fds -> ({[fd]} ∪ fds) ∖ {[fd]} = fds.
Proof. set_solver. Qed.

(** X8.  Creating the poller and closing it again undoes itself: from a
    Checker with no live handle, [createPoller] of the Checker followed by
    [closePoller] leaves the set of open descriptors, the lock, the
    registry and the readiness channel as they were, with -1 recorded. *)
Theorem createPoller_closePoller_round_trip (pfd : Z) (e : Err)
    (rest : list Answer) (w : World) :
  pollerFd (checker w) <= 0 ->
  pollerLock (checker w) = false ->
  fresh_fd pfd w = true ->
  0 < pfd < 2 ^ 31 ->
  exec (bind Checker_createPoller (fun _ => closePoller))
    (AnsFd pfd None :: AnsErr e :: rest) w
  = Done e (set_checker (set_pollerFd (-1)) w).
Proof.
  intros Hidle Hfree Hfresh Hpfd.
  unfold exec. rewrite run_bind, run_createPoller by assumption.
  rewrite run_closePoller.
  - unfold fresh_fd in Hfresh.
    apply andb_true_iff in Hfresh as [_ Hnew].
    apply bool_decide_eq_true in Hnew.
    f_equal. apply world_ext; [apply checker_ext | ..]; project_state;
      rewrite ?int32_small by lia; try reflexivity.
    + symmetry. exact Hfree.
    + apply reopen_close. exact Hnew.
  - project_state. rewrite int32_small; lia.
  - reflexivity.
Qed.

Lemma createPoller_closePoller_round_trip_witness :
  exec (bind Checker_createPoller (fun _ => closePoller))
    [AnsFd 4 None; AnsErr None] (NewChecker true)
  = Done None (NewChecker true).
Proof.
  apply (createPoller_closePoller_round_trip 4 None [] (NewChecker true));
    [simpl; lia | reflexivity | reflexivity | lia].
Defined.

(** X9.  When the package's [createPoller] fails, [CheckingLoop] returns
    its error wrapped with "error creating poller" and leaves the Checker as
    it found it: nothing is recorded, the readiness channel is not closed,
    the loop is not entered, however many iterations it would be given. *)
Theorem CheckingLoop_poller_creation_fails (fuel : nat) (fd : Z) (e : error)
    (rest : list Answer) (w : World) :
  pollerFd (checker w) <= 0 ->
  pollerLock (checker w) = false ->
  exec (CheckingLoop fuel) (AnsFd fd (Some e) :: rest) w
  = Done (Some (withMessage e "error creating poller")) w
  /\ errors_Cause (withMessage e "error creating poller") = errors_Cause e.
Proof.
  intros Hidle Hfree. split; [| reflexivity].
  unfold exec, CheckingLoop, Checker_createPoller, pollerFD, defer. simpl.
  rewrite Hfree. simpl.
  destruct (0 <? pollerFd (checker w)) eqn:Hcmp; [lia |]. simpl.
  f_equal. rewrite <- Hfree. destruct w as [[] ? ? ? ? ? ?]. reflexivity.
Qed.

Lemma CheckingLoop_poller_creation_fails_witness :
  exec (CheckingLoop 0) [AnsFd (-1) (Some (Errno 24))] (NewChecker true)
  = Done (Some (withMessage (Errno 24) "error creating poller"))
      (NewChecker true).
Proof.
  apply (CheckingLoop_poller_creation_fails 0 (-1) (Errno 24) []
           (NewChecker true)); [simpl; lia | reflexivity].
Defined.

(** X10.  The guard of the Checker's [createPoller].  The package's
    [createPoller] is called exactly when the recorded handle is not
    positive, and the handle is overwritten exactly when that call
    succeeded, with the new descriptor truncated to 32 bits; on a live
    handle and on a failed creation the method returns -1 with the error and
    stores nothing.  The lock is taken first and released last. *)
Theorem Checker_createPoller_guard (o : Oracle) (n : nat) :
  let tr := fst (observe Checker_createPoller o n) in
  let r := snd (observe Checker_createPoller o n) in
  let cur := o _ (S n) atomic_LoadInt32_pollerFd in
  let made := o _ (S (S n)) createPoller in
  (0 < cur ->
   r = Some (-1, Some ErrCheckerAlreadyStarted)
   /\ count is_createPoller tr = 0%nat /\ omap stored tr = [])
  /\ (cur <= 0 ->
      count is_createPoller tr = 1%nat
      /\ (forall e, snd made = Some e ->
                    r = Some (-1, Some e) /\ omap stored tr = [])
      /\ (snd made = None ->
          r = Some (fst made, None)
          /\ omap stored tr = [int32 (fst made)]))
  /\ lock_discipline false tr = Some false.
Proof.
  unfold Checker_createPoller, pollerFD, setPollerFD, defer, count. simpl.
  destruct (0 <? o _ (S n) atomic_LoadInt32_pollerFd) eqn:Hcmp; simpl.
  - split; [auto |]. split; [lia | reflexivity].
  - destruct (o _ (S (S n)) createPoller) as [pfd [e |]]; simpl;
      (split; [lia |]); (split; [| reflexivity]); intros _;
      (split; [reflexivity |]); split;
      first [discriminate | intros e' [= <-]; auto | auto].
Qed.

Lemma Checker_createPoller_guard_witness :
  snd (observe Checker_createPoller quiet 0)
  = Some (-1, Some ErrCheckerAlreadyStarted).
Proof.
  destruct (Checker_createPoller_guard quiet 0) as (Hlive & _).
  apply Hlive. simpl. lia.
Defined.

(** ** The polling loop *)

Lemma observe_handle_event (ev : event) (rest : list event) (o : Oracle)
    (n : nat) :
  observe (handlePollerEvents (ev :: rest)) o n =
  match o _ n (popResultPipe (Fd ev)) with
  | Some pipe =>
      let '(tr, r) := observe (handlePollerEvents rest) o (S (S n)) in
      (Ev (popResultPipe (Fd ev)) (Some pipe)
       :: Ev (chan_send pipe (EvErr ev))
            (o _ (S n) (chan_send pipe (EvErr ev)))
       :: tr, r)
  | None =>
      let '(tr, r) := observe (handlePollerEvents rest) o (S n) in
      (Ev (popResultPipe (Fd ev)) None :: tr, r)
  end.
Proof.
  simpl. destruct (o _ n (popResultPipe (Fd ev))) as [pipe |]; simpl.
  - destruct (observe (handlePollerEvents rest) o (S (S n))). reflexivity.
  - destruct (observe (handlePollerEvents rest) o (S n)). reflexivity.
Qed.

Lemma handlePollerEvents_pops_then_sends (events : list event)
    (o : Oracle) (n : nat) :
  let tr := fst (observe (handlePollerEvents events) o n) in
  snd (observe (handlePollerEvents events) o n) = Some tt
  /\ map fst (omap popped tr) = map Fd events
  /\ omap sent tr = deliveries events (map snd (omap popped tr))
  /\ (length (omap sent tr) <= length events)%nat
  /\ forallb pops_or_sends tr = true.
Proof.
  revert n. induction events as [| ev rest IH]; intros n.
  - simpl. auto.
  - cbv zeta. rewrite observe_handle_event.
    destruct (o _ n (popResultPipe (Fd ev))) as [pipe |].
    + specialize (IH (S (S n))). cbv zeta in IH.
      destruct (observe (handlePollerEvents rest) o (S (S n))) as [tr r].
      simpl in *. destruct IH as (Hr & Hpop & Hsent & Hlen & Hall).
      split; [exact Hr |]. split; [f_equal; exact Hpop |].
      split; [f_equal; exact Hsent |].
      split; [apply le_n_S; exact Hlen | exact Hall].
    + specialize (IH (S n)). cbv zeta in IH.
      destruct (observe (handlePollerEvents rest) o (S n)) as [tr r].
      simpl in *. destruct IH as (Hr & Hpop & Hsent & Hlen & Hall).
      split; [exact Hr |]. split; [f_equal; exact Hpop |].
      split; [exact Hsent |].
      split; [apply le_S; exact Hlen | exact Hall].
Qed.

Lemma handle_event_blocked (ev : event) (rest : list event)
    (answers : list Answer) (w : World) (pipe : chan) (buf : list Err) :
  resultPipes (checker w) !! Fd ev = Some pipe ->
  pipes w !! pipe = Some buf ->
  (pipeCap <= length buf)%nat ->
  run (handlePollerEvents (ev :: rest)) answers w = Blocked.
Proof.
  intros Hentry Hbuf Hfull. simpl. rewrite Hentry. simpl. rewrite Hbuf.
  apply Nat.ltb_ge in Hfull. rewrite Hfull. reflexivity.
Qed.

(** X11.  [handlePollerEvents] looks every event of the batch up in the
    registry, once and in order, and sends exactly for the lookups that
    found a channel: the error of that event, on that channel.  It performs
    no other operation, so a batch causes at most as many sends as it has
    events, an event whose lookup finds nothing causes none, and the
    function returns once every send has completed.  The send has no
    default case: on the shared state, an event whose channel is full
    blocks the function, with the rest of the batch not handled. *)
Theorem handlePollerEvents_sends_what_it_pops (events : list event)
    (o : Oracle) (n : nat) :
  let tr := fst (observe (handlePollerEvents events) o n) in
  snd (observe (handlePollerEvents events) o n) = Some tt
  /\ map fst (omap popped tr) = map Fd events
  /\ omap sent tr = deliveries events (map snd (omap popped tr))
  /\ (length (omap sent tr) <= length events)%nat
  /\ forallb pops_or_sends tr = true
  /\ (forall ev rest answers w pipe buf,
        resultPipes (checker w) !! Fd ev = Some pipe ->
        pipes w !! pipe = Some buf ->
        (pipeCap <= length buf)%nat ->
        run (handlePollerEvents (ev :: rest)) answers w = Blocked).
Proof.
  cbv zeta.
  pose proof (handlePollerEvents_pops_then_sends events o n) as H.
  cbv zeta in H. destruct H as (Hr & Hpop & Hsent & Hlen & Hall).
  split; [exact Hr |]. split; [exact Hpop |]. split; [exact Hsent |].
  split; [exact Hlen |]. split; [exact Hall |].
  exact handle_event_blocked.
Qed.

Lemma handlePollerEvents_sends_what_it_pops_witness :
  run (handlePollerEvents
         [{| Fd := 5; EvErr := None |}; {| Fd := 7; EvErr := None |}]) []
    (set_pipes (insert 0%nat [Some (Errno ECONNREFUSED)]) one_waiting)
  = Blocked.
Proof.
  destruct (handlePollerEvents_sends_what_it_pops [] quiet 0)
    as (_ & _ & _ & _ & _ & Hblocked).
  apply (Hblocked _ _ _ _ 0%nat [Some (Errno ECONNREFUSED)]).
  - reflexivity.
  - reflexivity.
  - unfold pipeCap. simpl. lia.
Defined.

Lemma handlePollerEvents_only_pops_and_sends (events : list event)
    (o : Oracle) (n : nat) :
  snd (observe (handlePollerEvents events) o n) = Some tt
  /\ forallb pops_or_sends (fst (observe (handlePollerEvents events) o n))
     = true.
Proof.
  revert n. induction events as [| ev rest IH]; intros n; [by split |].
  rewrite observe_handle_event.
  destruct (o _ n (popResultPipe (Fd ev))) as [pipe |];
    [specialize (IH (S (S n))) | specialize (IH (S n))];
    destruct (observe (handlePollerEvents rest) o _) as [tr r];
    simpl in *; tauto.
Qed.

Lemma after_skip (f : Event -> bool) (tr tr' : list Event) :
  forallb (fun e => negb (f e)) tr = true ->
  after f (tr ++ tr') = after f tr'.
Proof.
  induction tr as [| e tr IH]; simpl; [reflexivity |].
  intros Hall. apply andb_true_iff in Hall as [He Htr].
  destruct (f e); [discriminate He | apply IH; exact Htr].
Qed.

Lemma forallb_weaken (f g : Event -> bool) (tr : list Event) :
  (forall e, f e = true -> g e = true) ->
  forallb f tr = true -> forallb g tr = true.
Proof.
  intros Hfg. induction tr as [| e tr IH]; simpl; [reflexivity |].
  intros Hall. apply andb_true_iff in Hall as [He Htr].
  rewrite (Hfg _ He), (IH Htr). reflexivity.
Qed.

Lemma omap_none {B : Type} (f : Event -> option B) (g : Event -> bool)
    (tr : list Event) :
  (forall e, g e = true -> f e = None) ->
  forallb g tr = true -> omap f tr = [].
Proof.
  intros Hgf. induction tr as [| e tr IH]; simpl; [reflexivity |].
  intros Hall. apply andb_true_iff in Hall as [He Htr].
  rewrite (Hgf _ He). apply IH. exact Htr.
Qed.

Lemma pops_or_sends_not_cancelled (e : Event) :
  pops_or_sends e = true -> negb (saw_cancelled e) = true.
Proof. destruct e as [X op x]. destruct op; simpl; congruence. Qed.

Lemma pops_or_sends_not_failed (e : Event) :
  pops_or_sends e = true -> negb (poll_failed e) = true.
Proof. destruct e as [X op x]. destruct op; simpl; congruence. Qed.

Lemma pops_or_sends_not_polled (e : Event) :
  pops_or_sends e = true -> polled e = None.
Proof. destruct e as [X op x]. destruct op; simpl; congruence. Qed.

Lemma last_app_cons {A : Type} (l : list A) (x : A) (l' : list A) :
  last (l ++ x :: l') = last (x :: l').
Proof.
  induction l as [| y l IH]; [reflexivity |].
  simpl. destruct (l ++ x :: l') eqn:Happ; [by destruct l | exact IH].
Qed.

Lemma observe_pollingLoop_step (fuel : nat) (pfd : Z) (o : Oracle) (n : nat) :
  observe (pollingLoop (S fuel) pfd) o n =
  if o _ n select_ctx_Done then ([Ev select_ctx_Done true], Some None)
  else
    match o _ (S n) (pollEvents pfd pollerTimeout) with
    | (events, Some e) =>
        ([Ev select_ctx_Done false;
          Ev (pollEvents pfd pollerTimeout) (events, Some e)],
         Some (Some (withMessage e "error during polling loop")))
    | (events, None) =>
        let handled := fst (observe (handlePollerEvents events) o (S (S n))) in
        let '(tr, r) :=
          observe (pollingLoop fuel pfd) o (S (S n) + length handled) in
        (Ev select_ctx_Done false
         :: Ev (pollEvents pfd pollerTimeout) (events, None)
         :: handled ++ tr, r)
    end.
Proof.
  simpl. destruct (o _ n select_ctx_Done); [reflexivity |]. simpl.
  destruct (o _ (S n) (pollEvents pfd pollerTimeout)) as [events [e |]];
    [reflexivity |].
  rewrite observe_bind.
  destruct (handlePollerEvents_only_pops_and_sends events o (S (S n)))
    as [Hr _].
  destruct (observe (handlePollerEvents events) o (S (S n))) as [trH rH].
  simpl in *. subst rH.
  destruct (observe (pollingLoop fuel pfd) o _). reflexivity.
Qed.

Lemma loop_result_after_batch (e1 : Event) (pfd : Z) (d : Duration)
    (events : list event) (handled : list Event) :
  forallb pops_or_sends handled = true ->
  loop_result_of_trace
    (e1 :: Ev (pollEvents pfd d) (events, None) :: handled) = None.
Proof.
  intros Hall. unfold loop_result_of_trace.
  change (e1 :: Ev (pollEvents pfd d) (events, None) :: handled)
    with ([e1] ++ Ev (pollEvents pfd d) (events, None) :: handled).
  rewrite last_app_cons.
  induction handled as [| e handled IH] using rev_ind; [reflexivity |].
  rewrite app_comm_cons, last_snoc.
  rewrite forallb_app in Hall. apply andb_true_iff in Hall as [_ He].
  simpl in He. destruct e as [X op x]. destruct op; simpl in *; congruence.
Qed.

(** X12.  The loop of [pollingLoop], for any number of iterations and any
    answers.  Every poll is made on the descriptor the loop was given, with
    the one-second quantum, and there is at most one poll per iteration.
    Nothing is done after a cancellation check that saw the cancellation,
    and nothing after a poll that returned an error: the events returned
    with an error are not handled.  The loop returns nil exactly when its
    last operation saw the cancellation, and the wrapped error exactly when
    its last operation was the failed poll. *)
Theorem pollingLoop_trace (fuel : nat) (pfd : Z) (o : Oracle) (n : nat) :
  let tr := fst (observe (pollingLoop fuel pfd) o n) in
  let r := snd (observe (pollingLoop fuel pfd) o n) in
  Forall (fun q => q = (pfd, time_Second)) (omap polled tr)
  /\ (length (omap polled tr) <= fuel)%nat
  /\ after saw_cancelled tr = []
  /\ after poll_failed tr = []
  /\ r = loop_result_of_trace tr.
Proof.
  revert n. induction fuel as [| fuel IH]; intros n.
  - simpl. repeat split; auto.
  - cbv zeta. rewrite observe_pollingLoop_step.
    destruct (o _ n select_ctx_Done); [simpl; repeat split; auto; lia |].
    destruct (o _ (S n) (pollEvents pfd pollerTimeout)) as [events [e |]].
    + simpl. repeat split; auto. lia.
    + destruct (handlePollerEvents_only_pops_and_sends events o (S (S n)))
        as [_ Hall].
      set (handled := fst (observe (handlePollerEvents events) o (S (S n))))
        in *.
      cbv zeta. specialize (IH (S (S n) + length handled)%nat).
      cbv zeta in IH.
      destruct (observe (pollingLoop fuel pfd) o _) as [tr r].
      simpl fst in *. simpl snd in *.
      destruct IH as (Hq & Hlen & Hcan & Hfail & Hres).
      assert (Hpolled : omap polled (handled ++ tr) = omap polled tr).
      { rewrite omap_app,
          (omap_none polled pops_or_sends handled
             pops_or_sends_not_polled Hall).
        reflexivity. }
      assert (Hpolls :
                omap polled
                  (Ev select_ctx_Done false
                   :: Ev (pollEvents pfd pollerTimeout) (events, None)
                   :: handled ++ tr)
                = (pfd, pollerTimeout) :: omap polled tr).
      { rewrite <- Hpolled. reflexivity. }
      split; [| split; [| split; [| split]]].
      * rewrite Hpolls. constructor; [reflexivity | exact Hq].
      * rewrite Hpolls. simpl. lia.
      * simpl. rewrite after_skip; [exact Hcan |].
        eapply forallb_weaken; [| exact Hall].
        apply pops_or_sends_not_cancelled.
      * simpl. rewrite after_skip; [exact Hfail |].
        eapply forallb_weaken; [| exact Hall].
        apply pops_or_sends_not_failed.
      * destruct tr as [| e tr].
        -- rewrite app_nil_r, loop_result_after_batch by exact Hall.
           exact Hres.
        -- rewrite Hres. unfold loop_result_of_trace.
           rewrite !app_comm_cons, last_app_cons. reflexivity.
Qed.

(** ** The lock *)

Lemma lock_discipline_app (held : bool) (tr tr' : list Event) :
  lock_discipline held (tr ++ tr') =
  match lock_discipline held tr with
  | Some held' => lock_discipline held' tr'
  | None => None
  end.
Proof.
  revert held. induction tr as [| [X op x] tr IH]; intros held;
    [reflexivity |].
  simpl. destruct op; simpl; destruct held; simpl; try reflexivity;
    apply IH.
Qed.

Lemma lock_safe_Ret {A : Type} (a : A) : lock_safe (Ret a).
Proof. intros o n. reflexivity. Qed.

Lemma lock_safe_bind {A B : Type} (p : Prog A) (f : A -> Prog B) :
  lock_safe p -> (forall a, lock_safe (f a)) -> lock_safe (bind p f).
Proof.
  intros Hp Hf o n. rewrite observe_bind. specialize (Hp o n).
  destruct (observe p o n) as [tr [a |]]; [| exact Hp].
  specialize (Hf a o (n + length tr)%nat).
  destruct (observe (f a) o _) as [tr' r]. simpl in *.
  rewrite lock_discipline_app, Hp. exact Hf.
Qed.

Lemma lock_safe_setReady : lock_safe setReady.
Proof. intros o n. reflexivity. Qed.

Lemma lock_safe_resetReady : lock_safe resetReady.
Proof. intros o n. reflexivity. Qed.

Lemma lock_safe_createPoller : lock_safe Checker_createPoller.
Proof.
  intros o n. unfold Checker_createPoller, pollerFD, setPollerFD, defer.
  simpl. destruct (0 <? o _ (S n) atomic_LoadInt32_pollerFd); simpl;
    [reflexivity |].
  destruct (o _ (S (S n)) createPoller) as [pfd [e |]]; reflexivity.
Qed.

Lemma lock_safe_closePoller : lock_safe closePoller.
Proof.
  intros o n. unfold closePoller, pollerFD, setPollerFD, defer.
  simpl. destruct (0 <? o _ (S n) atomic_LoadInt32_pollerFd); reflexivity.
Qed.

Lemma lock_discipline_pops_and_sends (tr : list Event) :
  forallb pops_or_sends tr = true -> lock_discipline false tr = Some false.
Proof.
  induction tr as [| [X op x] tr IH]; [reflexivity |].
  simpl. intros Hall. apply andb_true_iff in Hall as [He Htr].
  destruct op; simpl in *; try discriminate He; apply IH; exact Htr.
Qed.

Lemma lock_safe_pollingLoop (fuel : nat) (pfd : Z) :
  lock_safe (pollingLoop fuel pfd).
Proof.
  intros o. induction fuel as [| fuel IH]; intros n; [reflexivity |].
  rewrite observe_pollingLoop_step.
  destruct (o _ n select_ctx_Done); [reflexivity |].
  destruct (o _ (S n) (pollEvents pfd pollerTimeout)) as [events [e |]];
    [reflexivity |].
  destruct (handlePollerEvents_only_pops_and_sends events o (S (S n)))
    as [_ Hall].
  set (handled := fst (observe (handlePollerEvents events) o (S (S n)))) in *.
  cbv zeta. specialize (IH (S (S n) + length handled)%nat).
  destruct (observe (pollingLoop fuel pfd) o _) as [tr r].
  simpl. rewrite lock_discipline_app, lock_discipline_pops_and_sends by done.
  exact IH.
Qed.

(** X13.  The lock of the Checker.  In every run of [CheckingLoop], ended or
    not, the lock is never taken while held, every release follows a take,
    the lock is free at the end, and no poll, channel send, select or
    connect is performed while it is held: the lock only brackets the two
    updates of the recorded handle.  [CheckAddr] never touches the lock. *)
Theorem CheckingLoop_lock_discipline (fuel : nat) (o : Oracle) (n : nat) :
  lock_discipline false (fst (observe (CheckingLoop fuel) o n)) = Some false
  /\ (forall p addr timeout,
        count is_lock_op (trace_of (CheckAddr p addr timeout) o) = 0%nat).
Proof.
  split.
  - revert o n. change (lock_safe (CheckingLoop fuel)).
    unfold CheckingLoop. apply lock_safe_bind; [apply lock_safe_createPoller |].
    intros [pfd [e |]]; [apply lock_safe_Ret |].
    unfold defer. apply lock_safe_bind.
    + apply lock_safe_bind; [apply lock_safe_setReady |]. intros _.
      apply lock_safe_bind; [apply lock_safe_pollingLoop |]. intros r.
      apply lock_safe_bind; [apply lock_safe_resetReady |]. intros _.
      apply lock_safe_Ret.
    + intros r. apply lock_safe_bind; [apply lock_safe_closePoller |].
      intros _. apply lock_safe_Ret.
  - intros p addr timeout. open_CheckAddr. by_cases o; reflexivity.
Qed.

(** ** Readiness *)

Lemma world_at_bind {A B : Type} (stop : forall X : Type, Op X -> bool)
    (p : Prog A) (f : A -> Prog B) (answers : list Answer) (w : World) :
  world_at stop (bind p f) answers w =
  match world_at stop p answers w with
  | Some w' => Some w'
  | None =>
      match run p answers w with
      | Done (a, rest) w' => world_at stop (f a) rest w'
      | _ => None
      end
  end.
Proof.
  revert answers w. induction p as [a | X op k IH |]; intros answers w.
  - reflexivity.
  - simpl. destruct (stop X op); [reflexivity |].
    destruct (op_step op _ w); try reflexivity. apply IH.
  - reflexivity.
Qed.

Lemma world_at_pollingLoop (fuel : nat) (pfd : Z) (rest : list Answer)
    (w : World) :
  world_at (@is_pollEvents) (pollingLoop (S fuel) pfd)
    (AnsCancelled false :: rest) w = Some w.
Proof. reflexivity. Qed.

Lemma world_at_createPoller (pfd : Z) (rest : list Answer) (w : World) :
  pollerFd (checker w) <= 0 ->
  pollerLock (checker w) = false ->
  fresh_fd pfd w = true ->
  world_at (@is_pollEvents) Checker_createPoller (AnsFd pfd None :: rest) w
  = None.
Proof.
  intros Hidle Hfree Hfresh.
  unfold Checker_createPoller, pollerFD, setPollerFD, defer. simpl.
  rewrite Hfree. simpl.
  destruct (0 <? pollerFd (checker w)) eqn:Hcmp; [lia |]. simpl.
  change (fresh_fd pfd (set_checker (set_pollerLock true) w))
    with (fresh_fd pfd w).
  rewrite Hfresh. reflexivity.
Qed.

(** X14.  Ready before the first poll.  Started on an idle Checker,
    [CheckingLoop] reaches its first poll with the readiness channel closed
    (the channel that [WaitReady] had been returning, so whoever waits on it
    is released), the new descriptor recorded and open, and the lock
    free. *)
Theorem readiness_set_before_polling (fuel : nat) (pfd : Z)
    (rest : list Answer) (w : World) :
  idle w ->
  fresh_fd pfd w = true ->
  0 < pfd < 2 ^ 31 ->
  exists w1,
    world_at (@is_pollEvents) (CheckingLoop (S fuel))
      (AnsFd pfd None :: AnsCancelled false :: rest) w = Some w1
    /\ ~ WaitReady_blocks w1
    /\ WaitReady w1 = WaitReady w
    /\ pollerFd (checker w1) = pfd
    /\ pollerLock (checker w1) = false
    /\ pfd ∈ openFds w1.
Proof.
  intros (Hidle & Hfree & Hopen & _) Hfresh Hpfd.
  unfold CheckingLoop.
  rewrite world_at_bind, world_at_createPoller, run_createPoller
    by assumption.
  cbv iota beta. unfold defer.
  rewrite world_at_bind, world_at_bind.
  assert (Hset : forall answers w0,
             world_at (@is_pollEvents) setReady answers w0 = None).
  { intros answers w0. unfold setReady. simpl.
    destruct (bool_decide _); reflexivity. }
  rewrite Hset, run_setReady by exact Hopen. cbv iota beta.
  rewrite world_at_bind, world_at_pollingLoop.
  eexists. split; [reflexivity |].
  unfold WaitReady_blocks, WaitReady. project_state.
  rewrite int32_small by lia.
  split; [intros Hnot; apply Hnot; apply elem_of_union_l;
          by apply elem_of_singleton |].
  repeat split; try reflexivity.
  apply elem_of_union_l. by apply elem_of_singleton.
Qed.

Lemma readiness_set_before_polling_witness :
  exists w1,
    world_at (@is_pollEvents) (CheckingLoop 1)
      [AnsFd 4 None; AnsCancelled false] (NewChecker true) = Some w1
    /\ ~ WaitReady_blocks w1.
Proof.
  destruct (readiness_set_before_polling 0 4 [] (NewChecker true))
    as (w1 & Hat & Hready & _).
  - split; [simpl; lia |]. split; [reflexivity |].
    split; [apply not_elem_of_empty | apply NewChecker_registry_ready].
  - reflexivity.
  - lia.
  - exists w1. split; [exact Hat | exact Hready].
Defined.
(** ** Stopping and starting again *)

Lemma CheckingLoop_cycle (s : loop_end) (pfd : Z) (closeErr : Err)
    (batches : list (list event)) (fuel : nat) (w : World) :
  idle w ->
  fresh_fd pfd w = true ->
  0 < pfd < 2 ^ 31 ->
  (length batches < fuel)%nat ->
  exists w',
    exec (CheckingLoop fuel)
      (AnsFd pfd None :: polls batches ++ end_answers s ++ [AnsErr closeErr]) w
    = Done (end_result s) w'
    /\ idle w'
    /\ openFds w' = openFds w
    /\ closedSignals w' = {[WaitReady w]} ∪ closedSignals w
    /\ WaitReady w' <> WaitReady w.
Proof.
  intros (Hidle & Hfree & Hopen & Hready) Hfresh Hpfd Hfuel.
  unfold exec, CheckingLoop. rewrite run_bind.
  rewrite run_createPoller by assumption.
  unfold defer. rewrite !run_bind.
  rewrite run_setReady by exact Hopen. cbv iota. rewrite run_bind.
  match goal with
  | |- context [run (pollingLoop fuel pfd) _ ?w1] =>
      destruct (pollingLoop_ends s pfd batches fuel w1 [AnsErr closeErr])
        as (w3 & Hloop & Hsame & Hready3); [exact Hready | exact Hfuel |]
  end.
  rewrite Hloop. cbv iota.
  rewrite run_bind, run_resetReady. cbv iota. rewrite run_Ret. cbv iota.
  unfold same_control in Hsame. project_state.
  destruct Hsame as (Hfd & Hlock & Hsig & _ & Hclosed & Hfds).
  revert Hfd Hlock Hsig Hclosed Hfds. project_state.
  intros Hfd Hlock Hsig Hclosed Hfds.
  rewrite int32_small in Hfd by lia.
  rewrite run_bind, run_closePoller; project_state; [| lia | exact Hlock].
  eexists. split; [reflexivity |].
  unfold idle, WaitReady_blocks, WaitReady. project_state.
  unfold fresh_fd in Hfresh. apply andb_true_iff in Hfresh as [_ Hnew].
  apply bool_decide_eq_true in Hnew.
  pose proof (is_fresh (closedSignals w3 ∪ {[isReady (checker w3)]}))
    as Hnewsig.
  split; [| split; [| split]].
  - split; [rewrite int32_small; lia |]. split; [reflexivity |].
    split; [| exact Hready3].
    intros Hin. apply Hnewsig. apply elem_of_union_l. exact Hin.
  - rewrite Hfd, Hfds. apply reopen_close. exact Hnew.
  - exact Hclosed.
  - intros Heq. apply Hnewsig. rewrite Heq, Hsig.
    apply elem_of_union_r. by apply elem_of_singleton.
Qed.

(** X15.  Stopping and starting again, with poller descriptors that are
    positive and below 2^31.  A [CheckingLoop] started on an idle Checker
    and ended, by cancellation or by a failed poll, leaves the Checker idle
    again with the descriptors that were open before, so that a second
    [CheckingLoop] can be started on it, also on the same descriptor
    number, and ends the same way.  Each cycle closes the readiness channel
    it found and leaves a new, open one: the channels of earlier cycles stay
    closed.  (A poller descriptor 0 is not closed, see C7.) *)
Theorem CheckingLoop_restarts (s s' : loop_end) (pfd pfd' : Z)
    (closeErr closeErr' : Err) (batches batches' : list (list event))
    (fuel fuel' : nat) (w : World) :
  idle w ->
  fresh_fd pfd w = true -> 0 < pfd < 2 ^ 31 ->
  fresh_fd pfd' w = true -> 0 < pfd' < 2 ^ 31 ->
  (length batches < fuel)%nat ->
  (length batches' < fuel')%nat ->
  exists w1 w2,
    exec (CheckingLoop fuel)
      (AnsFd pfd None :: polls batches ++ end_answers s ++ [AnsErr closeErr]) w
    = Done (end_result s) w1
    /\ exec (CheckingLoop fuel')
         (AnsFd pfd' None
          :: polls batches' ++ end_answers s' ++ [AnsErr closeErr']) w1
       = Done (end_result s') w2
    /\ idle w1 /\ idle w2
    /\ openFds w2 = openFds w
    /\ WaitReady w ∈ closedSignals w2
    /\ WaitReady w1 ∈ closedSignals w2
    /\ WaitReady_blocks w2.
Proof.
  intros Hidle Hfresh Hpfd Hfresh' Hpfd' Hfuel Hfuel'.
  destruct (CheckingLoop_cycle s pfd closeErr batches fuel w)
    as (w1 & Hrun1 & Hidle1 & Hfds1 & Hold1 & _); try assumption.
  assert (Hfresh1 : fresh_fd pfd' w1 = true).
  { unfold fresh_fd in *. rewrite Hfds1. exact Hfresh'. }
  destruct (CheckingLoop_cycle s' pfd' closeErr' batches' fuel' w1)
    as (w2 & Hrun2 & Hidle2 & Hfds2 & Hold2 & _); try assumption.
  exists w1, w2.
  split; [exact Hrun1 |]. split; [exact Hrun2 |].
  split; [exact Hidle1 |]. split; [exact Hidle2 |].
  split; [congruence |].
  split; [rewrite Hold2, Hold1; apply elem_of_union_r, elem_of_union_l;
          by apply elem_of_singleton |].
  split; [rewrite Hold2; apply elem_of_union_l; by apply elem_of_singleton |].
  apply Hidle2.
Qed.

Lemma CheckingLoop_restarts_witness :
  exists w1 w2,
    exec (CheckingLoop 1) [AnsFd 4 None; AnsCancelled true; AnsErr None]
      (NewChecker true) = Done None w1
    /\ exec (CheckingLoop 1)
         [AnsFd 4 None; AnsCancelled false;
          AnsEvents [] (Some (Errno EBADF)); AnsErr None] w1
       = Done (Some (withMessage (Errno EBADF) "error during polling loop"))
           w2
    /\ idle w2.
Proof.
  destruct (CheckingLoop_restarts Cancelled (WaitFailed [] (Errno EBADF))
              4 4 None None [] [] 1 1 (NewChecker true))
    as (w1 & w2 & Hrun1 & Hrun2 & _ & Hidle2 & _);
    try reflexivity; try lia; try (simpl; lia).
  - split; [simpl; lia |]. split; [reflexivity |].
    split; [apply not_elem_of_empty | apply NewChecker_registry_ready].
  - exists w1, w2. split; [exact Hrun1 |]. split; [exact Hrun2 | exact Hidle2].
Defined.

(** ** A check and the recorded handle *)

Lemma world_at_pending (stop : forall X : Type, Op X -> bool)
    (p : Platform) (addr : string) (timeout : Duration) (t0 t1 : Time)
    (sa : Sockaddr) (fd : Z) (serr : Err) (rest : list Answer) (w : World) :
  (forall X (op : Op X), asynchronous op = false -> stop X op = false) ->
  spec_pending p serr ->
  clock w <= t0 -> t0 <= t1 ->
  fresh_fd fd w = true ->
  world_at stop (CheckAddr p addr timeout)
    (pending_at t0 sa fd serr t1 ++ rest) w
  = world_at stop
      (defer (call (unix_Close fd))
         (waitConnectResult fd (time_Sub (time_Add t0 timeout) t1)))
      rest (set_clock t1 (set_openFds (union {[fd]}) (set_clock t0 w))).
Proof.
  intros Hstop Hpending Ht0 Ht1 Hfresh.
  apply connect_switch_pending in Hpending.
  unfold CheckAddr, createSocket, connect, pending_at. simpl.
  rewrite (Hstop _ time_Now eq_refl).
  destruct (clock w <=? t0) eqn:Hc0; [| lia]. simpl.
  rewrite (Hstop _ (parseSockAddr addr) eq_refl).
  rewrite (Hstop _ (unix_Socket AF_INET SOCK_STREAM 0) eq_refl).
  change (fresh_fd fd (set_clock t0 w)) with (fresh_fd fd w).
  rewrite Hfresh. simpl.
  rewrite (Hstop _ (unix_CloseOnExec fd) eq_refl).
  rewrite (Hstop _ (unix_Connect fd sa) eq_refl).
  rewrite Hpending. simpl.
  rewrite (Hstop _ time_Now eq_refl).
  destruct (t0 <=? t1) eqn:Hc1; [| lia]. reflexivity.
Qed.

(** X16.  [CheckAddr] does not look at whether a polling loop runs, neither
    at the readiness channel nor at the sign of the handle: with a pending
    connect it enters its channel in the registry and then submits the
    descriptor to whatever handle is recorded at that moment; on a Checker
    whose loop was never started that is -1. *)
Theorem CheckAddr_submits_to_recorded_handle (p : Platform) (addr : string)
    (timeout : Duration) (t0 t1 : Time) (sa : Sockaddr) (fd : Z) (serr : Err)
    (rest : list Answer) (w : World) :
  spec_pending p serr ->
  clock w <= t0 -> t0 <= t1 ->
  fresh_fd fd w = true ->
  exists w1,
    world_at (@is_registerEvents_on (pollerFd (checker w)) fd)
      (CheckAddr p addr timeout) (pending_at t0 sa fd serr t1 ++ rest) w
    = Some w1
    /\ resultPipes (checker w1) !! fd = Some (next_acquired w)
    /\ (fd ∈ openFds w1)
    /\ closedSignals w1 = closedSignals w
    /\ pollerFd (checker w1) = pollerFd (checker w).
Proof.
  intros Hpending Ht0 Ht1 Hfresh.
  rewrite world_at_pending; try assumption.
  - unfold waitConnectResult, waitPipeTimeout, pollerFD, defer, next_acquired.
    simpl. open_store. project_state.
    destruct (pipePool (checker w)) as [| pipe pool]; simpl;
      rewrite !Z.eqb_refl; simpl; eexists; (split; [reflexivity |]);
      project_state; rewrite lookup_insert_eq;
      (split; [reflexivity |]); (split; [| split; reflexivity]);
      apply elem_of_union_l; by apply elem_of_singleton.
  - intros X op. destruct op; simpl; congruence.
Qed.

Lemma CheckAddr_submits_to_recorded_handle_witness :
  exists w1,
    world_at (@is_registerEvents_on (-1) 5)
      (CheckAddr linux "10.0.0.1:80" time_Second)
      (pending_at 0 (SockaddrInet4 80 [10; 0; 0; 1]) 5 (Some (Errno 115)) 0
       ++ [AnsErr (Some (Errno EBADF)); AnsErr None])
      (NewChecker true) = Some w1
    /\ resultPipes (checker w1) !! 5 = Some 0%nat.
Proof.
  destruct (CheckAddr_submits_to_recorded_handle linux "10.0.0.1:80"
              time_Second 0 0 (SockaddrInet4 80 [10; 0; 0; 1]) 5
              (Some (Errno 115))
              [AnsErr (Some (Errno EBADF)); AnsErr None] (NewChecker true))
    as (w1 & Hat & Hentry & _).
  - right. left. reflexivity.
  - simpl. lia.
  - lia.
  - reflexivity.
  - exists w1. split; [exact Hat | exact Hentry].
Defined.

(** ** The budget of a check *)

Lemma time_Sub_sign (t u : Time) : time_Sub t u <= 0 <-> t <= u.
Proof.
  unfold time_Sub, minDuration, maxDuration.
  assert (0 < 2 ^ 63) by (apply Z.pow_pos_nonneg; lia). lia.
Qed.

Lemma time_Sub_range (t u : Time) :
  minDuration <= time_Sub t u <= maxDuration.
Proof.
  unfold time_Sub, minDuration, maxDuration.
  assert (0 < 2 ^ 63) by (apply Z.pow_pos_nonneg; lia). lia.
Qed.

Lemma time_Sub_budget (t0 t1 : Time) (timeout : Duration) :
  t0 <= t1 -> minDuration <= timeout ->
  time_Sub (time_Add t0 timeout) t1 <= timeout.
Proof.
  unfold time_Sub, time_Add, minDuration, maxDuration.
  assert (0 < 2 ^ 63) by (apply Z.pow_pos_nonneg; lia). lia.
Qed.

(** X17.  The budget of a check.  [CheckAddr] waits at most once, and the
    duration it waits for is the deadline fixed at entry minus the second
    clock reading, cut to the range of a duration.  With a clock that does
    not go back this is never more than the timeout given, and it is zero or
    negative, so that the timer is due at once, exactly when the deadline
    has been reached by the second reading. *)
Theorem CheckAddr_waits_within_budget (p : Platform) (addr : string)
    (timeout : Duration) (o : Oracle) :
  let tr := trace_of (CheckAddr p addr timeout) o in
  (length (omap waits tr) <= 1)%nat
  /\ forall d,
      omap waits tr = [d] ->
      exists t0 t1,
        omap clock_reading tr = [t0; t1]
        /\ (d <= 0 <-> time_Add t0 timeout <= t1)
        /\ (t0 <= t1 -> minDuration <= timeout -> d <= timeout)
        /\ minDuration <= d <= maxDuration.
Proof.
  open_CheckAddr. by_cases o; (split; [lia |]); intros d Hd;
    try discriminate Hd; injection Hd as <-;
    eexists _, _; (split; [reflexivity |]);
    (split; [apply time_Sub_sign |]);
    (split; [apply time_Sub_budget | apply time_Sub_range]).
Qed.

Lemma CheckAddr_waits_within_budget_witness :
  omap waits
    (trace_of (CheckAddr linux "127.0.0.1:80" time_Second)
       (connect_answers (Some (Errno 115))))
  = [time_Second].
Proof.
  destruct (CheckAddr_waits_within_budget linux "127.0.0.1:80" time_Second
              (connect_answers (Some (Errno 115)))) as [_ Hwait].
  destruct (Hwait time_Second eq_refl) as (t0 & t1 & _).
  reflexivity.
Defined.

(** * The retrying client *)

Lemma int64_small (z : Z) : - 2 ^ 63 <= z < 2 ^ 63 -> int64 z = z.
Proof.
  intros H. unfold int64.
  rewrite Z.mod_small by lia. lia.
Qed.

(** Every run of the loop of [Do] has one of the shapes of [Do_run]. *)
Lemma Do_from_run (c : Client) (req : Request) (o : COracle) (fuel : nat) :
  forall (i : Z) (resp0 : option Response) (n : nat) tr r,
    cobserve (Do_from fuel c req i resp0) o n = (tr, r) ->
    Do_run c req fuel i resp0 (List.filter loud tr) r.
Proof.
  induction fuel as [|fuel IH]; intros i resp0 n tr r.
  { intros [= <- <-]. constructor. }
  cask o.
  all: repeat match goal with u : unit |- _ => destruct u end.
  all: try (match goal with
            | |- context [cobserve (Do_from ?f ?c' ?rq ?j ?rs) ?oo ?m] =>
                specialize (IH j rs m);
                destruct (cobserve (Do_from f c' rq j rs) oo m) as [tl rl]
            end;
            specialize (IH _ _ eq_refl)).
  all: intros [= <- <-]; simpl; Do_shape.
Qed.

Lemma Do_shape_of (c : Client) (req : Request) (o : COracle) (fuel : nat) :
  Do_run c req fuel 0 None (List.filter loud (ctrace (Do fuel c req) o))
    (cresult (Do fuel c req) o).
Proof.
  unfold ctrace, cresult, Do.
  destruct (cobserve (Do_from fuel c req 0 None) o 0) as [tr r] eqn:E.
  exact (Do_from_run c req o fuel 0 None 0 tr r E).
Qed.

Lemma omap_loud {B : Type} (f : CEvent -> option B) (tr : list CEvent) :
  (forall e, loud e = false -> f e = None) ->
  omap f tr = omap f (List.filter loud tr).
Proof.
  intros Hf. induction tr as [|e tr IH]; [reflexivity|].
  simpl. destruct (loud e) eqn:E.
  - simpl. destruct (f e); [f_equal|]; exact IH.
  - rewrite (Hf e E). exact IH.
Qed.

Lemma Forall_loud (P : CEvent -> Prop) (tr : list CEvent) :
  Forall P tr -> Forall P (List.filter loud tr).
Proof.
  induction 1 as [|e tr He _ IH]; simpl; [constructor|].
  destruct (loud e); [constructor|]; assumption.
Qed.

Lemma attempt_of_silent e : loud e = false -> attempt_of e = None.
Proof. revert e. silent. Qed.

Lemma response_body_silent e : loud e = false -> response_body e = None.
Proof. intros H. unfold response_body. rewrite attempt_of_silent; auto. Qed.

Lemma verdict_of_silent e : loud e = false -> verdict_of e = None.
Proof. revert e. silent. Qed.

Lemma backoff_of_silent e : loud e = false -> backoff_of e = None.
Proof. revert e. silent. Qed.

Lemma waited_silent e : loud e = false -> waited e = None.
Proof. revert e. silent. Qed.

Lemma wait_cancelled_silent e : loud e = false -> wait_cancelled e = None.
Proof. revert e. silent. Qed.

Lemma closed_body_silent e : loud e = false -> closed_body e = None.
Proof. revert e. silent. Qed.

Lemma drained_body_silent e : loud e = false -> drained_body e = None.
Proof. revert e. silent. Qed.

Lemma body_failure_silent e : loud e = false -> body_failure e = None.
Proof. revert e. silent. Qed.

Lemma context_error_silent e : loud e = false -> context_error e = None.
Proof. revert e. silent. Qed.

Lemma handled_silent e : loud e = false -> handled e = None.
Proof. revert e. silent. Qed.

(** The counter of the loop stays within [int]. *)
Lemma next_iteration (rmax i : Z) :
  - 2 ^ 63 <= rmax < 2 ^ 63 ->
  0 <= i <= Z.max 0 rmax ->
  0 < int64 (rmax - i) ->
  int64 (i + 1) = i + 1 /\ 0 <= i + 1 <= Z.max 0 rmax /\ 0 < rmax - i.
Proof.
  intros Hmax Hi Hrem.
  rewrite int64_small in Hrem by lia.
  rewrite int64_small by lia. lia.
Qed.

Lemma Do_run_attempts (c : Client) (req : Request) fuel i resp0 tr r :
  Do_run c req fuel i resp0 tr r ->
  - 2 ^ 63 <= RetryMax c < 2 ^ 63 ->
  0 <= i <= Z.max 0 (RetryMax c) ->
  (Z.to_nat (RetryMax c - i) < fuel)%nat ->
  r <> None
  /\ (length (omap attempt_of tr) <= Z.to_nat (RetryMax c - i) + 1)%nat.
Proof.
  intros Hrun Hmax.
  induction Hrun as
    [ i resp0 | fuel i resp0 rd e Hb | fuel i resp0 resp err ce
    | fuel i resp0 resp err ce a Hrem Hh | fuel i resp0 resp err ce Hrem Hh
    | fuel i resp0 resp err ce copied wait e Hrem
    | fuel i resp0 resp err ce copied wait tr r Hrem Hrun IH ];
    intros Hi Hfuel.
  - lia.
  - split; [discriminate | simpl; lia].
  - split; [discriminate | simpl; lia].
  - split; [discriminate | simpl; lia].
  - split; [discriminate | destruct resp; simpl; lia].
  - split; [discriminate | destruct resp, err; simpl; lia].
  - destruct (next_iteration _ _ Hmax Hi Hrem) as (Hnext & Hi' & Hpos).
    rewrite Hnext in IH.
    destruct IH as [IHr IHn]; [exact Hi' | lia |].
    split; [exact IHr|].
    destruct resp, err; read_trace; lia.
Qed.

(** X18. With [RetryMax] an [int], [Do] returns, and it calls
    [HTTPClient.Do] at most [RetryMax + 1] times, at most once if
    [RetryMax] is negative. *)
Theorem Do_attempts_bounded (c : Client) (req : Request) (fuel : nat)
    (o : COracle) :
  - 2 ^ 63 <= RetryMax c < 2 ^ 63 ->
  (Z.to_nat (RetryMax c) < fuel)%nat ->
  cresult (Do fuel c req) o <> None
  /\ (length (omap attempt_of (ctrace (Do fuel c req) o))
      <= Z.to_nat (RetryMax c) + 1)%nat.
Proof.
  intros Hmax Hfuel.
  rewrite (omap_loud attempt_of _ attempt_of_silent).
  pose proof (Do_run_attempts c req fuel 0 None _ _ (Do_shape_of c req o fuel)
                Hmax) as H.
  rewrite Z.sub_0_r in H. apply H; lia.
Qed.

Lemma Do_attempts_bounded_witness :
  cresult (Do 3 (example_client 2 false) (example_request true))
    (scripted None (Some (received "refused")) live_default_policy false
       (fun _ => true)) <> None
  /\ (length (omap attempt_of
                (ctrace (Do 3 (example_client 2 false) (example_request true))
                   (scripted None (Some (received "refused"))
                      live_default_policy false (fun _ => true))))
      <= Z.to_nat 2 + 1)%nat.
Proof.
  apply (Do_attempts_bounded (example_client 2 false) (example_request true)
           3).
  - simpl. lia.
  - simpl. lia.
Defined.

(** Reading one more event at the front of a trace. *)
Lemma last_cons_Some {A : Type} (x y : A) (l : list A) :
  last l = Some y -> last (x :: l) = Some y.
Proof. intros H. rewrite last_cons, H. reflexivity. Qed.

Lemma Do_run_stop (c : Client) (req : Request) fuel i resp0 tr r ce :
  Do_run c req fuel i resp0 tr r ->
  last (omap verdict_of tr) = Some (false, ce) ->
  exists resp err,
    last (omap attempt_of tr) = Some (resp, err)
    /\ r = Some (resp, match ce with Some _ => ce | None => err end)
    /\ (length (omap closed_body tr) < length (omap attempt_of tr))%nat
    /\ (length (omap waited tr) + 1 = length (omap attempt_of tr))%nat.
Proof.
  induction 1 as
    [ i resp0 | fuel i resp0 rd e Hb | fuel i resp0 resp err ce'
    | fuel i resp0 resp err ce' a Hrem Hh | fuel i resp0 resp err ce' Hrem Hh
    | fuel i resp0 resp err ce' copied wait e Hrem
    | fuel i resp0 resp err ce' copied wait tr r Hrem Hrun IH ];
    try (destruct resp, err); read_trace; try discriminate.
  1-4: intros [= <-]; eexists _, _; repeat split; lia.
  all: intros Hlast.
  all: destruct (omap verdict_of tr) as [|v vs] eqn:Ev; [discriminate|].
  all: rewrite last_cons in Hlast.
  all: destruct (last (v :: vs)) as [v'|] eqn:El; [|discriminate].
  all: destruct (IH Hlast) as (resp' & err' & Ha & Hr & Hc & Hw).
  all: exists resp', err'; rewrite (last_cons_Some _ _ _ Ha).
  all: repeat split; first [exact Hr | lia | reflexivity].
Qed.

Lemma Do_run_gives_up (c : Client) (req : Request) fuel i resp0 tr r ce :
  Do_run c req fuel i resp0 tr r ->
  - 2 ^ 63 <= RetryMax c < 2 ^ 63 ->
  0 <= i <= Z.max 0 (RetryMax c) ->
  last (omap verdict_of tr) = Some (true, ce) ->
  length (omap verdict_of tr) = (Z.to_nat (RetryMax c - i) + 1)%nat ->
  exists resp err,
    last (omap attempt_of tr) = Some (resp, err)
    /\ if ErrorHandler c then
         exists a,
           omap handled tr = [(resp, err, int64 (RetryMax c + 1), a)]
           /\ r = Some a
           /\ omap closed_body tr = omap drained_body tr
       else
         r = Some (None,
                   Some (givingUp (Method req) (URL req)
                           (int64 (RetryMax c + 1))))
         /\ omap handled tr = []
         /\ forall rs,
             resp = Some rs -> last (omap closed_body tr) = Some (Body rs).
Proof.
  intros Hrun Hmax.
  induction Hrun as
    [ i resp0 | fuel i resp0 rd e Hb | fuel i resp0 resp err ce'
    | fuel i resp0 resp err ce' a Hrem Hh | fuel i resp0 resp err ce' Hrem Hh
    | fuel i resp0 resp err ce' copied wait e Hrem
    | fuel i resp0 resp err ce' copied wait tr r Hrem Hrun IH ];
    intros Hi.
  - discriminate.
  - discriminate.
  - discriminate.
  - intros _ _. exists resp, err. rewrite Hh. split; [reflexivity|].
    exists a. repeat split.
  - intros _ _. exists resp, err. rewrite Hh.
    destruct resp;
      (split; [reflexivity|split; [reflexivity|split; [reflexivity|]]]);
      intros rs Hrs; [injection Hrs as <-; reflexivity | discriminate].
  - intros _ Hlen. exfalso.
    rewrite int64_small in Hrem by lia.
    destruct resp, err; revert Hlen; read_trace; lia.
  - destruct (next_iteration _ _ Hmax Hi Hrem) as (Hnext & Hi' & Hpos).
    rewrite Hnext in IH. specialize (IH Hi').
    assert (Hv : omap verdict_of
                   (CEv HTTPClient_Do (resp, err)
                    :: CEv (call_RetryPolicy resp err) (true, ce')
                    :: draining resp err copied
                    ++ CEv (call_Backoff (RetryWaitMin c) (RetryWaitMax c) i
                              resp) wait
                    :: CEv (select_Done_or_After wait) false :: tr)
                 = (true, ce') :: omap verdict_of tr).
    { destruct resp, err; reflexivity. }
    rewrite Hv. clear Hv. intros Hlast Hlen.
    destruct (omap verdict_of tr) as [|v vs] eqn:Ev.
    { simpl in Hlen. lia. }
    change (last (v :: vs) = Some (true, ce)) in Hlast.
    destruct IH as (resp' & err' & Ha & Hend).
    { exact Hlast. }
    { simpl in Hlen |- *. lia. }
    exists resp', err'. split.
    { destruct resp, err; read_trace; apply last_cons_Some, Ha. }
    destruct (ErrorHandler c).
    + destruct Hend as (a & Hh & Hr & Hc). exists a.
      destruct resp, err; read_trace; rewrite ?Hh, ?Hc; repeat split;
        assumption.
    + destruct Hend as (Hr & Hh & Hc).
      destruct resp, err; read_trace; rewrite ?Hh; repeat split;
        try assumption; intros rs Hrs;
        rewrite ?(last_cons_Some _ _ _ (Hc rs Hrs));
        try reflexivity; apply Hc, Hrs.
Qed.

Lemma Do_run_no_attempt (c : Client) (req : Request) fuel i resp0 tr r :
  Do_run c req fuel i resp0 tr r ->
  omap attempt_of tr = [] ->
  omap closed_body tr = [] /\ omap drained_body tr = [].
Proof.
  destruct 1; try (destruct resp, err); read_trace; try discriminate;
    split; reflexivity.
Qed.

Lemma Do_run_body_failure (c : Client) (req : Request) fuel i resp0 tr r e :
  Do_run c req fuel i resp0 tr r ->
  omap body_failure tr = [e] ->
  r = Some (match last (omap attempt_of tr) with
            | Some (resp, _) => resp
            | None => resp0
            end, Some e)
  /\ forall rs,
      last (omap attempt_of tr) = Some (Some rs, None) ->
      last (omap closed_body tr) = Some (Body rs)
      /\ last (omap drained_body tr) = Some (Body rs).
Proof.
  induction 1 as
    [ i resp0 | fuel i resp0 rd e' Hb | fuel i resp0 resp err ce'
    | fuel i resp0 resp err ce' a Hrem Hh | fuel i resp0 resp err ce' Hrem Hh
    | fuel i resp0 resp err ce' copied wait e' Hrem
    | fuel i resp0 resp err ce' copied wait tr r Hrem Hrun IH ];
    try (destruct resp as [rs'|], err as [e''|]); read_trace;
    try discriminate.
  { intros [= <-]. split; [reflexivity | discriminate]. }
  all: intros Hb; destruct (IH Hb) as [Hr Hc]; clear IH.
  all: rewrite last_cons.
  all: destruct (last (omap attempt_of tr)) as [[resp' err']|] eqn:El.
  all: split; [exact Hr | intros rs Hrs].
  all: try (injection Hrs as -> ->; destruct (Hc rs eq_refl) as [Hc1 Hc2];
            rewrite ?(last_cons_Some _ _ _ Hc1),
              ?(last_cons_Some _ _ _ Hc2);
            split; first [reflexivity | assumption]).
  all: try discriminate.
  apply last_None in El.
  destruct (Do_run_no_attempt _ _ _ _ _ _ _ Hrun El) as [-> ->].
  injection Hrs as <-. split; reflexivity.
Qed.

Lemma Do_run_cancelled (c : Client) (req : Request) fuel i resp0 tr r :
  Do_run c req fuel i resp0 tr r ->
  last (omap wait_cancelled tr) = Some true ->
  exists e, omap context_error tr = [e] /\ r = Some (None, e).
Proof.
  induction 1 as
    [ i resp0 | fuel i resp0 rd e' Hb | fuel i resp0 resp err ce'
    | fuel i resp0 resp err ce' a Hrem Hh | fuel i resp0 resp err ce' Hrem Hh
    | fuel i resp0 resp err ce' copied wait e' Hrem
    | fuel i resp0 resp err ce' copied wait tr r Hrem Hrun IH ];
    try (destruct resp as [rs'|], err as [e''|]); read_trace;
    try discriminate.
  1-4: intros _; exists e'; split; reflexivity.
  all: rewrite last_cons.
  all: destruct (last (omap wait_cancelled tr)) as [b|]; [|discriminate].
  all: intros [= ->]; exact (IH eq_refl).
Qed.

Lemma Do_run_backoff (c : Client) (req : Request) fuel i resp0 tr r :
  Do_run c req fuel i resp0 tr r ->
  - 2 ^ 63 <= RetryMax c < 2 ^ 63 ->
  0 <= i <= Z.max 0 (RetryMax c) ->
  omap backoff_of tr
  = imap (fun k w => (RetryWaitMin c, RetryWaitMax c, i + Z.of_nat k, w))
      (omap waited tr).
Proof.
  intros Hrun Hmax.
  induction Hrun as
    [ i resp0 | fuel i resp0 rd e' Hb | fuel i resp0 resp err ce'
    | fuel i resp0 resp err ce' a Hrem Hh | fuel i resp0 resp err ce' Hrem Hh
    | fuel i resp0 resp err ce' copied wait e' Hrem
    | fuel i resp0 resp err ce' copied wait tr r Hrem Hrun IH ];
    intros Hi.
  1-5: try destruct resp; reflexivity.
  - destruct resp, err; read_trace; rewrite Z.add_0_r; reflexivity.
  - destruct (next_iteration _ _ Hmax Hi Hrem) as (Hnext & Hi' & Hpos).
    rewrite Hnext in IH. specialize (IH Hi').
    destruct resp, err; read_trace; rewrite Z.add_0_r, IH; f_equal;
      apply imap_ext; intros k w _; simpl;
      replace (i + 1 + Z.of_nat k) with (i + Z.of_nat (S k)) by lia;
      reflexivity.
Qed.

Lemma Do_run_closes (c : Client) (req : Request) fuel i resp0 tr r :
  Do_run c req fuel i resp0 tr r ->
  sublist (omap closed_body tr) (omap response_body tr)
  /\ sublist (omap drained_body tr) (omap closed_body tr).
Proof.
  induction 1 as
    [ i resp0 | fuel i resp0 rd e' Hb | fuel i resp0 resp err ce'
    | fuel i resp0 resp err ce' a Hrem Hh | fuel i resp0 resp err ce' Hrem Hh
    | fuel i resp0 resp err ce' copied wait e' Hrem
    | fuel i resp0 resp err ce' copied wait tr r Hrem Hrun [IH1 IH2] ];
    try (destruct resp as [rs'|]); try (destruct err as [e''|]);
    read_trace; split;
    repeat first [ assumption | apply sublist_nil_l | apply sublist_skip
                 | apply sublist_cons ].
Qed.

Lemma Do_run_default_policy (c : Client) (req : Request) fuel i resp0 tr r
    rs :
  Do_run c req fuel i resp0 tr r ->
  ErrorHandler c = false ->
  Forall answers_as_default tr ->
  r = Some (Some rs, None) ->
  StatusCode rs <> 0
  /\ (StatusCode rs < 500 \/ StatusCode rs = 501)
  /\ last (omap attempt_of tr) = Some (Some rs, None).
Proof.
  intros Hrun Hh.
  induction Hrun as
    [ i resp0 | fuel i resp0 rd e' Hb | fuel i resp0 resp err ce'
    | fuel i resp0 resp err ce' a Hrem Hh' | fuel i resp0 resp err ce' Hrem _
    | fuel i resp0 resp err ce' copied wait e' Hrem
    | fuel i resp0 resp err ce' copied wait tr r Hrem Hrun IH ];
    intros Hdef Hr; try discriminate; try congruence.
  - apply Forall_cons in Hdef as [_ Hdef].
    apply Forall_cons in Hdef as [[ctxErr Hp] _].
    destruct ce' as [e|]; [discriminate|].
    injection Hr as -> ->.
    unfold defaultRetryPolicy in Hp.
    destruct ctxErr; [discriminate|].
    destruct (StatusCode rs =? 0) eqn:E0; [discriminate|].
    destruct (500 <=? StatusCode rs) eqn:E5;
      [destruct (StatusCode rs =? 501) eqn:E1; [|discriminate]|];
      repeat split; lia.
  - apply Forall_cons in Hdef as [_ Hdef].
    apply Forall_cons in Hdef as [_ Hdef].
    apply Forall_app in Hdef as [_ Hdef].
    apply Forall_cons in Hdef as [_ Hdef].
    apply Forall_cons in Hdef as [_ Hdef].
    destruct (IH Hdef Hr) as (H0 & H5 & Hl).
    repeat split; try assumption.
    destruct resp, err; read_trace; apply last_cons_Some, Hl.
Qed.

(** X19. When [RetryPolicy] says not to retry, [Do] returns the response of
    that attempt, with the policy's error if it gave one and the attempt's
    error otherwise; up to then it has waited once and closed at most one
    body for each earlier attempt, and nothing for this one. *)
Theorem Do_returns_when_policy_stops (c : Client) (req : Request)
    (fuel : nat) (o : COracle) (ce : CErr) :
  let tr := ctrace (Do fuel c req) o in
  last (omap verdict_of tr) = Some (false, ce) ->
  exists resp err,
    last (omap attempt_of tr) = Some (resp, err)
    /\ cresult (Do fuel c req) o
       = Some (resp, match ce with Some _ => ce | None => err end)
    /\ (length (omap closed_body tr) < length (omap attempt_of tr))%nat
    /\ (length (omap waited tr) + 1 = length (omap attempt_of tr))%nat.
Proof.
  intros tr. subst tr.
  rewrite (omap_loud verdict_of _ verdict_of_silent),
    (omap_loud attempt_of _ attempt_of_silent),
    (omap_loud closed_body _ closed_body_silent),
    (omap_loud waited _ waited_silent).
  apply (Do_run_stop c req fuel 0 None), Do_shape_of.
Qed.

Lemma Do_returns_when_policy_stops_witness :
  exists resp err,
    last (omap attempt_of
            (ctrace (Do 3 (example_client 2 false) (example_request true))
               (scripted (Some {| StatusCode := 404; Body := 1 |}) None
                  live_default_policy false (fun _ => true))))
    = Some (resp, err)
    /\ cresult (Do 3 (example_client 2 false) (example_request true))
         (scripted (Some {| StatusCode := 404; Body := 1 |}) None
            live_default_policy false (fun _ => true))
       = Some (resp, err).
Proof.
  destruct (Do_returns_when_policy_stops (example_client 2 false)
              (example_request true) 3
              (scripted (Some {| StatusCode := 404; Body := 1 |}) None
                 live_default_policy false (fun _ => true)) None)
    as (resp & err & Ha & Hr & _).
  - reflexivity.
  - exists resp, err. split; [exact Ha | exact Hr].
Defined.

(** X20. When the policy still asks for a retry at attempt [RetryMax + 1]
    (at the first attempt if [RetryMax] is negative), [Do] gives up.  With
    no [ErrorHandler] it closes the body of the last response, if there is
    one, and returns no response and the error that reports
    [RetryMax + 1] attempts, a number that is zero or negative when
    [RetryMax] is negative although one attempt was made.  With an
    [ErrorHandler] it returns what the handler returns for the last
    response, the last error and [RetryMax + 1], and has closed only the
    bodies it drained before retrying. *)
Theorem Do_gives_up (c : Client) (req : Request) (fuel : nat) (o : COracle)
    (ce : CErr) :
  let tr := ctrace (Do fuel c req) o in
  - 2 ^ 63 <= RetryMax c < 2 ^ 63 ->
  last (omap verdict_of tr) = Some (true, ce) ->
  length (omap verdict_of tr) = (Z.to_nat (RetryMax c) + 1)%nat ->
  exists resp err,
    last (omap attempt_of tr) = Some (resp, err)
    /\ if ErrorHandler c then
         exists a,
           omap handled tr = [(resp, err, int64 (RetryMax c + 1), a)]
           /\ cresult (Do fuel c req) o = Some a
           /\ omap closed_body tr = omap drained_body tr
       else
         cresult (Do fuel c req) o
         = Some (None,
                 Some (givingUp (Method req) (URL req)
                         (int64 (RetryMax c + 1))))
         /\ omap handled tr = []
         /\ forall rs,
             resp = Some rs -> last (omap closed_body tr) = Some (Body rs).
Proof.
  intros tr Hmax. subst tr.
  rewrite (omap_loud verdict_of _ verdict_of_silent),
    (omap_loud attempt_of _ attempt_of_silent),
    (omap_loud closed_body _ closed_body_silent),
    (omap_loud drained_body _ drained_body_silent),
    (omap_loud handled _ handled_silent).
  intros Hlast Hlen.
  apply (Do_run_gives_up c req fuel 0 None _ _ ce (Do_shape_of c req o fuel)
           Hmax).
  - lia.
  - exact Hlast.
  - rewrite Z.sub_0_r. exact Hlen.
Qed.

Lemma Do_gives_up_witness :
  cresult (Do 1 (example_client (-1) false) (example_request false))
    (scripted (Some {| StatusCode := 503; Body := 1 |}) None
       live_default_policy false (fun _ => true))
  = Some (None, Some (givingUp "GET" "http://example.test/" 0)).
Proof.
  destruct (Do_gives_up (example_client (-1) false) (example_request false) 1
              (scripted (Some {| StatusCode := 503; Body := 1 |}) None
                 live_default_policy false (fun _ => true)) None)
    as (resp & err & _ & Hr & _).
  - simpl. lia.
  - reflexivity.
  - reflexivity.
  - exact Hr.
Defined.

(** X21. When [req.body()] fails, [Do] returns that error together with
    the response of the attempt before, or no response at the first
    attempt; if that response came without error, [Do] has already
    drained and closed its body. *)
Theorem Do_body_failure_returns_previous_response (c : Client)
    (req : Request) (fuel : nat) (o : COracle) (e : cerror) :
  let tr := ctrace (Do fuel c req) o in
  omap body_failure tr = [e] ->
  cresult (Do fuel c req) o
  = Some (match last (omap attempt_of tr) with
          | Some (resp, _) => resp
          | None => None
          end, Some e)
  /\ forall rs,
      last (omap attempt_of tr) = Some (Some rs, None) ->
      last (omap closed_body tr) = Some (Body rs)
      /\ last (omap drained_body tr) = Some (Body rs).
Proof.
  intros tr. subst tr.
  rewrite (omap_loud body_failure _ body_failure_silent),
    (omap_loud attempt_of _ attempt_of_silent),
    (omap_loud closed_body _ closed_body_silent),
    (omap_loud drained_body _ drained_body_silent).
  apply (Do_run_body_failure c req fuel 0 None), Do_shape_of.
Qed.

Lemma Do_body_failure_returns_previous_response_witness :
  cresult (Do 3 (example_client 2 false) (example_request true))
    (scripted (Some {| StatusCode := 503; Body := 7 |}) None
       live_default_policy false (Nat.eqb 0))
  = Some (Some {| StatusCode := 503; Body := 7 |},
          Some (received "unreadable"))
  /\ last (omap closed_body
             (ctrace (Do 3 (example_client 2 false) (example_request true))
                (scripted (Some {| StatusCode := 503; Body := 7 |}) None
                   live_default_policy false (Nat.eqb 0))))
     = Some 7%nat.
Proof.
  destruct (Do_body_failure_returns_previous_response
              (example_client 2 false) (example_request true) 3
              (scripted (Some {| StatusCode := 503; Body := 7 |}) None
                 live_default_policy false (Nat.eqb 0))
              (received "unreadable"))
    as [Hr Hc].
  - reflexivity.
  - split; [exact Hr|].
    exact (proj1 (Hc {| StatusCode := 503; Body := 7 |} eq_refl)).
Defined.

(** X22. When the context is done during a wait, [Do] asks the context
    for its error once and returns no response and that error. *)
Theorem Do_cancelled_while_waiting (c : Client) (req : Request)
    (fuel : nat) (o : COracle) :
  let tr := ctrace (Do fuel c req) o in
  last (omap wait_cancelled tr) = Some true ->
  exists e,
    omap context_error tr = [e]
    /\ cresult (Do fuel c req) o = Some (None, e).
Proof.
  intros tr. subst tr.
  rewrite (omap_loud wait_cancelled _ wait_cancelled_silent),
    (omap_loud context_error _ context_error_silent).
  apply (Do_run_cancelled c req fuel 0 None), Do_shape_of.
Qed.

Lemma Do_cancelled_while_waiting_witness :
  exists e,
    omap context_error
      (ctrace (Do 3 (example_client 2 true) (example_request false))
         (scripted None (Some (received "refused")) live_default_policy true
            (fun _ => true)))
    = [e]
    /\ cresult (Do 3 (example_client 2 true) (example_request false))
         (scripted None (Some (received "refused")) live_default_policy true
            (fun _ => true))
       = Some (None, e).
Proof.
  apply (Do_cancelled_while_waiting (example_client 2 true)
           (example_request false) 3).
  reflexivity.
Defined.

(** X23. With [RetryMax] an [int], the k-th wait of [Do] (from 0) lasts
    what [Backoff] returned when called with [RetryWaitMin],
    [RetryWaitMax] and attempt number k, and [Backoff] is called for
    nothing else. *)
Theorem Do_waits_what_Backoff_says (c : Client) (req : Request)
    (fuel : nat) (o : COracle) :
  let tr := ctrace (Do fuel c req) o in
  - 2 ^ 63 <= RetryMax c < 2 ^ 63 ->
  omap backoff_of tr
  = imap (fun k wait => (RetryWaitMin c, RetryWaitMax c, Z.of_nat k, wait))
      (omap waited tr).
Proof.
  intros tr Hmax. subst tr.
  rewrite (omap_loud backoff_of _ backoff_of_silent),
    (omap_loud waited _ waited_silent).
  rewrite (Do_run_backoff c req fuel 0 None _ _ (Do_shape_of c req o fuel)
             Hmax) by lia.
  apply imap_ext. intros k w _. reflexivity.
Qed.

Lemma Do_waits_what_Backoff_says_witness :
  omap backoff_of
    (ctrace (Do 3 (example_client 2 false) (example_request false))
       (scripted None (Some (received "refused")) live_default_policy false
          (fun _ => true)))
  = imap (fun k wait =>
            (RetryWaitMin (example_client 2 false),
             RetryWaitMax (example_client 2 false), Z.of_nat k, wait))
      (omap waited
         (ctrace (Do 3 (example_client 2 false) (example_request false))
            (scripted None (Some (received "refused")) live_default_policy
               false (fun _ => true)))).
Proof.
  apply (Do_waits_what_Backoff_says (example_client 2 false)
           (example_request false) 3).
  simpl. lia.
Defined.

(** X24. The bodies that [Do] closes are bodies of responses that
    [HTTPClient.Do] returned to it, in the order received and at most one
    close for each response received; the bodies it drains are among those
    it closes. *)
Theorem Do_closes_only_received_bodies (c : Client) (req : Request)
    (fuel : nat) (o : COracle) :
  let tr := ctrace (Do fuel c req) o in
  sublist (omap closed_body tr) (omap response_body tr)
  /\ sublist (omap drained_body tr) (omap closed_body tr).
Proof.
  intros tr. subst tr.
  rewrite (omap_loud response_body _ response_body_silent),
    (omap_loud closed_body _ closed_body_silent),
    (omap_loud drained_body _ drained_body_silent).
  apply (Do_run_closes c req fuel 0 None _ _ (Do_shape_of c req o fuel)).
Qed.

(** X25. With no [ErrorHandler] and a policy that answers as
    [defaultRetryPolicy] does, a response that [Do] returns without error
    is the one of the last attempt, and its status is neither 0 nor a
    status from 500 up other than 501. *)
Theorem Do_default_policy_returns_final_status (c : Client) (req : Request)
    (fuel : nat) (o : COracle) (rs : Response) :
  let tr := ctrace (Do fuel c req) o in
  ErrorHandler c = false ->
  Forall answers_as_default tr ->
  cresult (Do fuel c req) o = Some (Some rs, None) ->
  StatusCode rs <> 0
  /\ (StatusCode rs < 500 \/ StatusCode rs = 501)
  /\ last (omap attempt_of tr) = Some (Some rs, None).
Proof.
  intros tr Hh Hdef Hr. subst tr.
  rewrite (omap_loud attempt_of _ attempt_of_silent).
  apply (Do_run_default_policy c req fuel 0 None _ _ rs
           (Do_shape_of c req o fuel) Hh).
  - apply Forall_loud, Hdef.
  - exact Hr.
Qed.

Lemma Do_default_policy_returns_final_status_witness :
  StatusCode {| StatusCode := 501; Body := 1 |} <> 0
  /\ (StatusCode {| StatusCode := 501; Body := 1 |} < 500
      \/ StatusCode {| StatusCode := 501; Body := 1 |} = 501)
  /\ last (omap attempt_of
             (ctrace (Do 3 (example_client 2 false) (example_request true))
                (scripted (Some {| StatusCode := 501; Body := 1 |}) None
                   live_default_policy false (fun _ => true))))
     = Some (Some {| StatusCode := 501; Body := 1 |}, None).
Proof.
  apply (Do_default_policy_returns_final_status (example_client 2 false)
           (example_request true) 3
           (scripted (Some {| StatusCode := 501; Body := 1 |}) None
              live_default_policy false (fun _ => true))).
  - reflexivity.
  - repeat constructor. exists None. reflexivity.
  - reflexivity.
Defined.
